(** * Subtitle acquisition and caching pipeline: a shallow embedding

    The development follows [server.js] and [lib/titulkyClient.js]:
    JavaScript strings are lists of UTF-16 code units, buffers are lists of
    bytes, [Map]s and plain objects used as dictionaries are finite maps,
    and the asynchronous request handlers are step machines whose atomic
    steps are the stretches of code between two [await]s. *)

From Stdlib Require Import ZArith NArith List Ascii String Strings.Byte Bool Lia.
From Stdlib Require Import DecimalString.
From stdpp Require Import gmap list.
Import ListNotations.

Local Open Scope N_scope.

(** ** JavaScript strings *)

Module JS.

(** A string is its sequence of UTF-16 code units. *)
Abbreviation jsstring := (list N).

(** An ASCII literal of the source: every character is one code unit. *)
Definition js (s : string) : jsstring :=
  map N_of_ascii (list_ascii_of_string s).

Definition nl : jsstring := [10].

Definition in_range (lo hi c : N) : bool := (lo <=? c) && (c <=? hi).

(** [\d] *)
Definition is_digit (c : N) : bool := in_range 48 57 c.
Definition is_lower (c : N) : bool := in_range 97 122 c.
Definition is_upper (c : N) : bool := in_range 65 90 c.
(** [\s], which is also the set [String.prototype.trim] strips: the
    WhiteSpace and LineTerminator code points of ECMAScript. *)
Definition is_space (c : N) : bool :=
  in_range 9 13 c || (c =? 32) || (c =? 160) || (c =? 5760)
  || in_range 8192 8202 c || (c =? 8232) || (c =? 8233) || (c =? 8239)
  || (c =? 8287) || (c =? 12288) || (c =? 65279).

(** [String.prototype.toLowerCase], code unit by code unit.  It is exact on
    ASCII, and on the two code units outside ASCII whose lower case reaches
    into ASCII: U+0130 (to "i" followed by U+0307) and U+212A, the Kelvin
    sign (to "k").  Every other code unit is left as it is: its lower case
    stays outside ASCII, and this program only ever keeps or compares the
    ASCII part of a lower-cased string. *)
Definition lower_unit (c : N) : jsstring :=
  if is_upper c then [c + 32]
  else if c =? 304 then [105; 775]
  else if c =? 8490 then [107]
  else [c].

Definition toLowerCase (s : jsstring) : jsstring := concat (map lower_unit s).

(** The canonical form under which a regular expression with the [i] flag
    compares code units.  ECMAScript never lets a code unit outside ASCII
    canonicalize into ASCII, and every [i]-flagged pattern of this program
    is ASCII, so only the ASCII letters matter. *)
Definition canon (c : N) : N := if is_lower c then c - 32 else c.

Fixpoint trimStart (s : jsstring) : jsstring :=
  match s with
  | c :: tl => if is_space c then trimStart tl else s
  | [] => []
  end.

Definition trimEnd (s : jsstring) : jsstring := rev (trimStart (rev s)).

Definition trim (s : jsstring) : jsstring := trimEnd (trimStart s).

Definition eqb (a b : jsstring) : bool := bool_decide (a = b).

(** [s.startsWith(p)] *)
Fixpoint startsWith (s p : jsstring) {struct p} : bool :=
  match p, s with
  | [], _ => true
  | x :: p', y :: s' => (x =? y) && startsWith s' p'
  | _ :: _, [] => false
  end.

(** A literal pattern anchored at the start, under the [i] flag. *)
Fixpoint startsWith_ci (s p : jsstring) {struct p} : bool :=
  match p, s with
  | [], _ => true
  | x :: p', y :: s' => (canon x =? canon y) && startsWith_ci s' p'
  | _ :: _, [] => false
  end.

(** [s.includes(p)] *)
Fixpoint includes (s p : jsstring) : bool :=
  startsWith s p ||
  match s with
  | [] => false
  | _ :: tl => includes tl p
  end.

(** [s.slice(n)] for [0 <= n]. *)
Definition slice_from (n : nat) (s : jsstring) : jsstring := drop n s.

(** [parts.join(sep)] *)
Fixpoint join (sep : jsstring) (parts : list jsstring) : jsstring :=
  match parts with
  | [] => []
  | [p] => p
  | p :: rest => p ++ sep ++ join sep rest
  end.

(** [s.split(c)] for a separator of one code unit: never an empty list. *)
Fixpoint split_on (sep : N) (s : jsstring) : list jsstring :=
  match s with
  | [] => [[]]
  | c :: tl =>
      if c =? sep then [] :: split_on sep tl
      else match split_on sep tl with
           | cur :: rest => (c :: cur) :: rest
           | [] => [[c]]
           end
  end.

End JS.
Export JS.

(** ** Title filter ([isExactTitleMatch], server.js) *)

Module TitleMatch.

(** [x.toLowerCase().replace(/[^a-z0-9\s]/g, '').trim()] *)
Definition kept (c : N) : bool := is_lower c || is_digit c || is_space c.

Definition normalize (s : jsstring) : jsstring :=
  trim (List.filter kept (toLowerCase s)).

(** [/^\d{4}/.test(after)] *)
Definition year_prefix (s : jsstring) : bool :=
  match s with
  | a :: b :: c :: d :: _ => is_digit a && is_digit b && is_digit c && is_digit d
  | _ => false
  end.

(** The literal alternatives of
    [/^(s\d|season|720|1080|2160|bluray|brrip|web|dvd|hdtv|x26)/i]. *)
Definition release_words : list jsstring :=
  map js ["season"; "720"; "1080"; "2160"; "bluray"; "brrip"; "web"; "dvd";
          "hdtv"; "x26"]%string.

(** The alternative [s\d]. *)
Definition season_marker (s : jsstring) : bool :=
  match s with
  | a :: d :: _ => (canon a =? canon 115) && is_digit d
  | _ => false
  end.

Definition release_prefix (s : jsstring) : bool :=
  season_marker s || existsb (startsWith_ci s) release_words.

Definition isExactTitleMatch (movieName subText : jsstring) : bool :=
  match movieName, subText with
  | [], _ | _, [] => false
  | _, _ =>
      let movie := normalize movieName in
      let sub := normalize subText in
      if eqb sub movie then true
      else if startsWith sub movie then
        let after := trim (slice_from (length movie) sub) in
        match after with
        | [] => true
        | _ => year_prefix after || release_prefix after
        end
      else false
  end.

(** *** The filter in the words of the specification

    Both texts are normalized; the candidate is accepted when it equals the
    target, or starts with the target and what follows, trimmed, is
    nothing, begins with a four-digit year, or begins with a release-context
    token. *)

Definition four_digit_year (r : jsstring) : Prop :=
  ∃ a b c d tl, r = a :: b :: c :: d :: tl
                ∧ is_digit a = true ∧ is_digit b = true
                ∧ is_digit c = true ∧ is_digit d = true.

Definition release_context (r : jsstring) : Prop :=
  (∃ d tl, r = 115 :: d :: tl ∧ is_digit d = true)
  ∨ (∃ w tl, In w release_words ∧ r = w ++ tl).

Definition follows (r : jsstring) : Prop :=
  r = [] ∨ four_digit_year r ∨ release_context r.

Definition title_accepts (target candidate : jsstring) : Prop :=
  let t := normalize target in
  let c := normalize candidate in
  c = t ∨ ∃ rest, c = t ++ rest ∧ follows (trim rest).

End TitleMatch.

(** ** Encoding detection ([ensureUtf8], [isValidUtf8], server.js) *)

Module Encoding.

(** A [Buffer] is its list of bytes; [buffer[i]] is [undefined] past the end. *)
Definition byte_at (buffer : list byte) (i : nat) : option N :=
  Byte.to_N <$> buffer !! i.

Definition units_of (buffer : list byte) : list N := map Byte.to_N buffer.

(** *** [buffer.toString('utf-8')]

    Node decodes as the WHATWG Encoding Standard prescribes: every maximal
    ill-formed subpart becomes one U+FFFD, a byte-order mark is kept, and a
    code point above U+FFFF becomes a surrogate pair. *)

Inductive utf8_state :=
  | Idle
  | Pending (cp : N) (more : nat) (lo hi : N).

Definition emit (cp : N) : jsstring :=
  if cp <? 65536 then [cp]
  else [55296 + (cp - 65536) / 1024; 56320 + (cp - 65536) mod 1024].

Definition replacement : N := 65533.

Definition utf8_lead (b : N) : jsstring * utf8_state :=
  if b <=? 0x7F then ([b], Idle)
  else if in_range 0xC2 0xDF b then ([], Pending (N.land b 0x1F) 1 0x80 0xBF)
  else if in_range 0xE0 0xEF b then
    ([], Pending (N.land b 0xF) 2
           (if b =? 0xE0 then 0xA0 else 0x80) (if b =? 0xED then 0x9F else 0xBF))
  else if in_range 0xF0 0xF4 b then
    ([], Pending (N.land b 0x7) 3
           (if b =? 0xF0 then 0x90 else 0x80) (if b =? 0xF4 then 0x8F else 0xBF))
  else ([replacement], Idle).

Fixpoint utf8_run (st : utf8_state) (bs : list N) : jsstring :=
  match bs with
  | [] => match st with Idle => [] | Pending _ _ _ _ => [replacement] end
  | b :: tl =>
      match st with
      | Idle => let '(out, st') := utf8_lead b in out ++ utf8_run st' tl
      | Pending cp more lo hi =>
          if in_range lo hi b then
            let cp' := N.lor (N.shiftl cp 6) (N.land b 0x3F) in
            match more with
            | S (S more') => utf8_run (Pending cp' (S more') 0x80 0xBF) tl
            | _ => emit cp' ++ utf8_run Idle tl
            end
          else
            let '(out, st') := utf8_lead b in
            replacement :: out ++ utf8_run st' tl
      end
  end.

Definition utf8_decode (buffer : list byte) : jsstring :=
  utf8_run Idle (units_of buffer).

(** A literal of the source file, which is UTF-8, as code units. *)
Definition js_utf8 (s : string) : jsstring :=
  utf8_decode (list_byte_of_string s).

(** [(str.match(/\uFFFD/g) || []).length] *)
Definition replacements (str : jsstring) : nat :=
  length (List.filter (N.eqb replacement) str).

(** [(str.match(/[\xC0-\xC3][\x80-\xBF]/g) || []).length]: the matches are
    taken from left to right and do not overlap. *)
Fixpoint suspicious (str : jsstring) : nat :=
  match str with
  | a :: rest =>
      match rest with
      | b :: tl =>
          if in_range 0xC0 0xC3 a && in_range 0x80 0xBF b
          then S (suspicious tl) else suspicious rest
      | [] => 0%nat
      end
  | [] => 0%nat
  end.

(** [suspicious / totalChars > 0.02].  Both operands are integers below
    2^53, where the rounded quotient exceeds the double nearest to 0.02
    exactly when the exact quotient exceeds 2/100, which is the comparison
    written here. *)
Definition over_two_percent (suspicious totalChars : nat) : bool :=
  (2 * N.of_nat totalChars <? 100 * N.of_nat suspicious).

Definition isValidUtf8 (str : jsstring) : bool :=
  if (0 <? replacements str)%nat then false
  else if (50 <? length str)%nat && over_two_percent (suspicious str) (length str)
  then false
  else true.

Section EnsureUtf8.

(** [iconv.decode(buffer, 'utf-16le')] and [iconv.decode(buffer, 'win1250')]
    belong to the iconv-lite package. *)
Variable utf16le_decode : list byte -> jsstring.
Variable win1250_decode : list byte -> jsstring.

Definition has_utf8_bom (buffer : list byte) : bool :=
  bool_decide (byte_at buffer 0 = Some 0xEF)
  && bool_decide (byte_at buffer 1 = Some 0xBB)
  && bool_decide (byte_at buffer 2 = Some 0xBF).

Definition has_utf16le_bom (buffer : list byte) : bool :=
  bool_decide (byte_at buffer 0 = Some 0xFF)
  && bool_decide (byte_at buffer 1 = Some 0xFE).

Definition ensureUtf8 (buffer : list byte) : jsstring :=
  if has_utf8_bom buffer then utf8_decode buffer
  else if has_utf16le_bom buffer then utf16le_decode buffer
  else
    let utf8Str := utf8_decode buffer in
    if isValidUtf8 utf8Str then utf8Str
    else win1250_decode buffer.

End EnsureUtf8.

(** *** The selection in the words of the specification *)

Definition utf8_bom (buffer : list byte) : Prop :=
  ∃ rest, buffer = xef :: xbb :: xbf :: rest.

Definition utf16le_bom (buffer : list byte) : Prop :=
  ∃ rest, buffer = xff :: xfe :: rest.

(** The text contains a replacement character, or has more than 50 code
    units and more than 2% of that number in matches of the pattern. *)
Definition looks_misdecoded (str : jsstring) : Prop :=
  In replacement str
  ∨ ((50 < length str)%nat ∧ (2 * length str < 100 * suspicious str)%nat).

Definition plain_ascii (buffer : list byte) : Prop :=
  Forall (λ b, Byte.to_N b < 128) buffer.

End Encoding.

(** ** Global replacement by a regular expression *)

Module Replace.

(** [s.replace(re, ...)] under the [g] flag, for an expression that never
    matches the empty string.  The matcher tells whether [re] matches at the
    start of the text it is given, and then the replacement and the number
    of code units matched; the scan resumes after the match. *)
Definition matcher := jsstring -> option (jsstring * nat).

Fixpoint replace_go (m : matcher) (skip : nat) (s : jsstring) : jsstring :=
  match s with
  | [] => []
  | c :: tl =>
      match skip with
      | S k => replace_go m k tl
      | O =>
          match m s with
          | Some (rep, len) => rep ++ replace_go m (pred len) tl
          | None => c :: replace_go m 0 tl
          end
      end
  end.

Definition replace_global (m : matcher) (s : jsstring) : jsstring :=
  replace_go m 0 s.

(** A literal pattern. *)
Definition lit (pat rep : jsstring) : matcher :=
  fun s => if startsWith s pat then Some (rep, length pat) else None.

(** [s.replace(/^pat\s*/i, '')] for a literal [pat]. *)
Fixpoint strip_ci (p s : jsstring) {struct p} : option jsstring :=
  match p, s with
  | [], _ => Some s
  | x :: p', y :: s' => if canon x =? canon y then strip_ci p' s' else None
  | _ :: _, [] => None
  end.

Definition strip_label (label s : jsstring) : jsstring :=
  match strip_ci label s with
  | Some rest => trimStart rest
  | None => s
  end.

End Replace.
Export Replace.

(** ** SRT to WebVTT ([srtToVtt], server.js) *)

Module Srt.

(** [/\r\n/g] *)
Definition crlf : matcher := lit [13; 10] [10].

(** [/(\d{2}:\d{2}:\d{2}),(\d{3})/g] replaced by ['$1.$2'] *)
Definition srt_time : matcher := fun s =>
  match s with
  | h1 :: h2 :: c1 :: m1 :: m2 :: c2 :: s1 :: s2 :: k :: f1 :: f2 :: f3 :: _ =>
      if forallb is_digit [h1; h2; m1; m2; s1; s2; f1; f2; f3]
         && (c1 =? 58) && (c2 =? 58) && (k =? 44)
      then Some ([h1; h2; c1; m1; m2; c2; s1; s2] ++ [46] ++ [f1; f2; f3], 12%nat)
      else None
  | _ => None
  end.

Definition srtToVtt (srtContent : jsstring) : jsstring :=
  let vttBody := replace_global srt_time (replace_global crlf srtContent) in
  js "WEBVTT" ++ nl ++ nl ++ trim vttBody ++ nl.

End Srt.

(** ** ASS/SSA to WebVTT ([assToVtt] and its helpers, server.js) *)

Module Ass.

Record Style := { color : option jsstring; bold : bool; italic : bool }.

Record Dialogue := { start : jsstring; finish : jsstring; text : jsstring }.

(** [text.split(/\r?\n/)] *)
Fixpoint split_lines (s : jsstring) : list jsstring :=
  match s with
  | [] => [[]]
  | c :: tl =>
      let push := match split_lines tl with
                  | cur :: rest => (c :: cur) :: rest
                  | [] => [[c]]
                  end in
      if c =? 10 then [] :: split_lines tl
      else if c =? 13 then
        match tl with
        | d :: tl' => if d =? 10 then [] :: split_lines tl' else push
        | [] => push
        end
      else push
  end.

(** [fields.indexOf(x)], [None] for [-1]. *)
Fixpoint indexOf (fields : list jsstring) (x : jsstring) : option nat :=
  match fields with
  | [] => None
  | f :: rest => if eqb f x then Some 0%nat else S <$> indexOf rest x
  end.

(** [s.padStart(2, '0')] *)
Definition padStart2 (s : jsstring) : jsstring :=
  repeat 48 (2 - length s)%nat ++ s.

(** [s.padEnd(3, '0').substring(0, 3)] *)
Definition padEnd3 (s : jsstring) : jsstring :=
  take 3 (s ++ repeat 48 (3 - length s)%nat).

(** The longest run of digits at the start, [\d+] when it is not empty. *)
Fixpoint span_digits (s : jsstring) : jsstring * jsstring :=
  match s with
  | c :: tl =>
      if is_digit c then let '(ds, rest) := span_digits tl in (c :: ds, rest)
      else ([], s)
  | [] => ([], [])
  end.

(** [(\d+):(\d+):(\d+)\.(\d+)] anchored at the start of [s]. *)
Definition time_at (s : jsstring) : option (jsstring * jsstring * jsstring * jsstring) :=
  match span_digits s with
  | (((_ :: _) as h), c1 :: r1) =>
      if c1 =? 58 then
        match span_digits r1 with
        | (((_ :: _) as m), c2 :: r2) =>
            if c2 =? 58 then
              match span_digits r2 with
              | (((_ :: _) as sec), c3 :: r3) =>
                  if c3 =? 46 then
                    match span_digits r3 with
                    | (((_ :: _) as cs), _) => Some (h, m, sec, cs)
                    | _ => None
                    end
                  else None
              | _ => None
              end
            else None
        | _ => None
        end
      else None
  | _ => None
  end.

(** [assTime.match(...)]: the leftmost match. *)
Fixpoint time_match (s : jsstring) : option (jsstring * jsstring * jsstring * jsstring) :=
  match time_at s with
  | Some r => Some r
  | None => match s with
            | [] => None
            | _ :: tl => time_match tl
            end
  end.

Definition assTimeToVtt (assTime : jsstring) : jsstring :=
  match time_match assTime with
  | None => js "00:00:00.000"
  | Some (h, m, sec, cs) =>
      padStart2 h ++ js ":" ++ padStart2 m ++ js ":" ++ padStart2 sec
      ++ js "." ++ padEnd3 cs
  end.

(** [m.slice(-a, -b)] and [m.slice(-a)] on a string of at least [a] units. *)
Definition slice_back (a b : nat) (m : jsstring) : jsstring :=
  take (a - b) (drop (length m - a) m).

(** [assColorToVtt]; [None] is an absent argument, [null] on the way out. *)
Definition assColorToVtt (assColor : option jsstring) : option jsstring :=
  match assColor with
  | None | Some [] => None
  | Some c =>
      let m1 := match strip_ci (js "&H") c with Some r => r | None => c end in
      let m := match rev m1 with
               | 38 :: r => rev r
               | _ => m1
               end in
      if (6 <=? length m)%nat then
        let b := slice_back 6 4 m in
        let g := slice_back 4 2 m in
        let r := slice_back 2 0 m in
        Some (js "#" ++ r ++ g ++ b)
      else None
  end.

Definition is_hex (c : N) : bool :=
  is_digit c || in_range 65 70 c || in_range 97 102 c.

(** [/\{\\(?:1)?c&H([0-9A-Fa-f]{6})&?\}/g] and its replacement function. *)
Definition color_tag : matcher := fun s =>
  match s with
  | 123 :: 92 :: r =>
      let '(r1, n1) := match r with
                       | 49 :: r' => (r', 1%nat)
                       | _ => (r, 0%nat)
                       end in
      match r1 with
      | 99 :: 38 :: 72 :: x1 :: x2 :: x3 :: x4 :: x5 :: x6 :: r2 =>
          let hex := [x1; x2; x3; x4; x5; x6] in
          if forallb is_hex hex then
            let rep := match assColorToVtt (Some (js "&H" ++ hex)) with
                       | Some col => js "<c.color" ++ col ++ js ">"
                       | None => []
                       end in
            match r2 with
            | 125 :: _ => Some (rep, (2 + n1 + 9 + 1)%nat)
            | 38 :: 125 :: _ => Some (rep, (2 + n1 + 9 + 2)%nat)
            | _ => None
            end
          else None
      | _ => None
      end
  | _ => None
  end.

(** The position of the first [}] . *)
Fixpoint close_brace (s : jsstring) : option nat :=
  match s with
  | [] => None
  | c :: tl => if c =? 125 then Some 0%nat else S <$> close_brace tl
  end.

(** [/\{[^}]*\}/g] replaced by [''] *)
Definition any_tag : matcher := fun s =>
  match s with
  | 123 :: r =>
      match close_brace r with
      | Some i => Some ([], (i + 2)%nat)
      | None => None
      end
  | _ => None
  end.

Definition tag (name : string) (rep : string) : matcher :=
  lit (js "{\" ++ js name ++ js "}") (js rep).

Definition assTextToVtt (text : jsstring) (style : option Style) : jsstring :=
  let result := text in
  let result := replace_global (tag "b0" "</b>") (replace_global (tag "b1" "<b>") result) in
  let result := replace_global (tag "i0" "</i>") (replace_global (tag "i1" "<i>") result) in
  let result := replace_global (tag "u0" "</u>") (replace_global (tag "u1" "<u>") result) in
  let result := replace_global color_tag result in
  let result := replace_global any_tag result in
  let result := replace_global (lit (js "\N") nl) result in
  let result := replace_global (lit (js "\n") nl) result in
  let result := replace_global (lit (js "\h") (js " ")) result in
  let result :=
    match style with
    | Some st =>
        let result := if bold st then js "<b>" ++ result ++ js "</b>" else result in
        let result := if italic st then js "<i>" ++ result ++ js "</i>" else result in
        match color st with
        | Some col => js "<c.color" ++ col ++ js ">" ++ result ++ js "</c>"
        | None => result
        end
    | None => result
    end in
  trim result.

(** The state of the line scan of [assToVtt].  [styles] is the object used
    as a dictionary from style names: the map holds its own properties and,
    under the key [__proto__], its prototype once an assignment
    [styles['__proto__'] = {...}] has replaced it (such an assignment
    creates no property); [style_named] below reads the object. *)
Record scan := {
  styles : gmap jsstring Style;
  inStyles : bool;
  styleFormat : list jsstring;
  inEvents : bool;
  formatFields : list jsstring;
  dialogues : list Dialogue;
}.

Definition scan0 : scan :=
  {| styles := ∅; inStyles := false; styleFormat := []; inEvents := false;
     formatFields := []; dialogues := [] |}.

(** [/^\[V4\+?\s*Styles?\]/i] *)
Definition styles_header (t : jsstring) : bool :=
  match strip_ci (js "[V4") t with
  | None => false
  | Some r1 =>
      let r2 := match r1 with 43 :: r => r | _ => r1 end in
      match strip_ci (js "Style") (trimStart r2) with
      | None => false
      | Some r4 =>
          match r4 with
          | 93 :: _ => true
          | c :: 93 :: _ => canon c =? canon 115
          | _ => false
          end
      end
  end.

(** [/^\[Events\]/i] *)
Definition events_header (t : jsstring) : bool := startsWith_ci t (js "[Events]").

(** [/^\[/] *)
Definition bracket (t : jsstring) : bool :=
  match t with 91 :: _ => true | _ => false end.

(** [x.split(',').map(f => f.trim().toLowerCase())] *)
Definition fields_of (s : jsstring) : list jsstring :=
  map (fun f => toLowerCase (trim f)) (split_on 44 s).

(** [parts[i]?.trim() === '-1' || parts[i]?.trim() === '1'] *)
Definition flag_on (parts : list jsstring) (i : nat) : bool :=
  match parts !! i with
  | Some p => eqb (trim p) (js "-1") || eqb (trim p) (js "1")
  | None => false
  end.

Definition style_line (sc : scan) (trimmed : jsstring) : scan :=
  let parts := split_on 44 (strip_label (js "Style:") trimmed) in
  let nameIdx := indexOf (styleFormat sc) (js "name") in
  let colorIdx := indexOf (styleFormat sc) (js "primarycolour") in
  let boldIdx := indexOf (styleFormat sc) (js "bold") in
  let italicIdx := indexOf (styleFormat sc) (js "italic") in
  match nameIdx with
  | Some ni =>
      match parts !! ni with
      | Some ((_ :: _) as name) =>
          let st :=
            {| color := match colorIdx with
                        | Some ci => assColorToVtt (trim <$> parts !! ci)
                        | None => None
                        end;
               bold := match boldIdx with
                       | Some bi => flag_on parts bi
                       | None => false
                       end;
               italic := match italicIdx with
                         | Some ii => flag_on parts ii
                         | None => false
                         end |} in
          {| styles := <[trim name := st]> (styles sc);
             inStyles := inStyles sc; styleFormat := styleFormat sc;
             inEvents := inEvents sc; formatFields := formatFields sc;
             dialogues := dialogues sc |}
      | _ => sc
      end
  | None => sc
  end.

(** [styles[styleName] || null], as [assTextToVtt] sees the value.  An own
    property is a style object, and so is the prototype read under
    [__proto__].  Any other name is looked up in the prototype.  When an
    assignment has put a style object there, the name [color] finds the
    colour of that object, a string unless it is [null]: of a string
    [assTextToVtt] reads [bold], which is the method
    [String.prototype.bold] and counts as true, and [italic] and [color],
    which a string does not have.  The names [bold] and [italic] find a
    boolean, and every name left finds [undefined] or a member of
    [Object.prototype]; none of these has a [bold], an [italic] or a
    [color], so that [assTextToVtt] leaves the text as it does for
    [null]. *)
Definition style_named (styles : gmap jsstring Style) (styleName : jsstring)
  : option Style :=
  match styles !! styleName with
  | Some st => Some st
  | None =>
      match styles !! js "__proto__" with
      | Some proto =>
          if eqb styleName (js "color") then
            match color proto with
            | Some _ => Some {| color := None; bold := true; italic := false |}
            | None => None
            end
          else None
      | None => None
      end
  end.

(** [parts[i]] where the length test of the caller has put [i] in range. *)
Definition part (parts : list jsstring) (i : nat) : jsstring :=
  default [] (parts !! i).

Definition dialogue_line (sc : scan) (trimmed : jsstring) : scan :=
  let parts := split_on 44 (strip_label (js "Dialogue:") trimmed) in
  if (length (formatFields sc) <=? length parts)%nat then
    let startIdx := indexOf (formatFields sc) (js "start") in
    let endIdx := indexOf (formatFields sc) (js "end") in
    let textIdx := indexOf (formatFields sc) (js "text") in
    let styleIdx := indexOf (formatFields sc) (js "style") in
    match startIdx, endIdx, textIdx with
    | Some si, Some ei, Some ti =>
        let textParts := join (js ",") (drop ti parts) in
        let styleName := match styleIdx with
                         | Some i => trim (part parts i)
                         | None => js "null"
                         end in
        let d := {| start := assTimeToVtt (trim (part parts si));
                    finish := assTimeToVtt (trim (part parts ei));
                    text := assTextToVtt (trim textParts)
                              (style_named (styles sc) styleName) |} in
        {| styles := styles sc; inStyles := inStyles sc;
           styleFormat := styleFormat sc; inEvents := inEvents sc;
           formatFields := formatFields sc;
           dialogues := dialogues sc ++ [d] |}
    | _, _, _ => sc
    end
  else sc.

(** One turn of the loop over the lines; [None] is the [break]. *)
Definition scan_line (sc : scan) (line : jsstring) : option scan :=
  let trimmed := trim line in
  if styles_header trimmed then
    Some {| styles := styles sc; inStyles := true; styleFormat := styleFormat sc;
            inEvents := false; formatFields := formatFields sc;
            dialogues := dialogues sc |}
  else if inStyles sc && startsWith_ci trimmed (js "Format:") then
    Some {| styles := styles sc; inStyles := inStyles sc;
            styleFormat := fields_of (strip_label (js "Format:") trimmed);
            inEvents := inEvents sc; formatFields := formatFields sc;
            dialogues := dialogues sc |}
  else if inStyles sc && startsWith_ci trimmed (js "Style:") then
    Some (style_line sc trimmed)
  else if events_header trimmed then
    Some {| styles := styles sc; inStyles := false; styleFormat := styleFormat sc;
            inEvents := true; formatFields := formatFields sc;
            dialogues := dialogues sc |}
  else if bracket trimmed && inEvents sc then None
  else if inEvents sc && startsWith_ci trimmed (js "Format:") then
    Some {| styles := styles sc; inStyles := inStyles sc;
            styleFormat := styleFormat sc; inEvents := inEvents sc;
            formatFields := fields_of (strip_label (js "Format:") trimmed);
            dialogues := dialogues sc |}
  else if inEvents sc && startsWith_ci trimmed (js "Dialogue:") then
    Some (dialogue_line sc trimmed)
  else Some sc.

Fixpoint scan_lines (sc : scan) (lines : list jsstring) : scan :=
  match lines with
  | [] => sc
  | line :: rest =>
      match scan_line sc line with
      | Some sc' => scan_lines sc' rest
      | None => sc
      end
  end.

Definition cue (d : Dialogue) : jsstring :=
  start d ++ js " --> " ++ finish d ++ nl ++ text d ++ nl.

Definition render (ds : list Dialogue) : jsstring :=
  js "WEBVTT" ++ nl ++ nl ++ join nl (map cue ds).

Definition assToVtt (assContent : jsstring) : jsstring :=
  render (dialogues (scan_lines scan0 (split_lines assContent))).

(** The scan of lines among which none reaches the [break]. *)
Fixpoint scan_through (sc : scan) (lines : list jsstring) : option scan :=
  match lines with
  | [] => Some sc
  | line :: rest => sc' ← scan_line sc line; scan_through sc' rest
  end.

(** Text without a brace or a backslash holds no ASS tag or escape. *)
Definition plain_text (t : jsstring) : Prop := Forall (λ c, c ≠ 123 ∧ c ≠ 92) t.

(** A matcher whose pattern begins with a brace or a backslash. *)
Definition tag_anchored (m : matcher) : Prop :=
  ∀ c s, c ≠ 123 → c ≠ 92 → m (c :: s) = None.

(** The markup of a style around a text, in the words of the
    specification: bold innermost, then italic, then the colour. *)
Definition styled (st : Style) (inner : jsstring) : jsstring :=
  let inner := if bold st then js "<b>" ++ inner ++ js "</b>" else inner in
  let inner := if italic st then js "<i>" ++ inner ++ js "</i>" else inner in
  match color st with
  | Some col => js "<c.color" ++ col ++ js ">" ++ inner ++ js "</c>"
  | None => inner
  end.

(** A column of a dialogue line: text without a comma. *)
Definition column (c : jsstring) : Prop := Forall (λ x, x ≠ 44) c.

(** The dialogue line of the nine columns [cols] and the text [t]. *)
Definition dialogue_of (cols : list jsstring) (t : jsstring) : jsstring :=
  js "Dialogue: " ++ join (js ",") cols ++ js "," ++ t.

(** *** The sample of the specification *)

(** The [Format:] line of an [[Events]] section as the ASS format has it,
    and the fields it declares. *)
Definition events_format : jsstring :=
  js "Format: Layer, Start, End, Style, Name, MarginL, MarginR, MarginV, Effect, Text".

Definition events_fields : list jsstring :=
  map js ["layer"; "start"; "end"; "style"; "name"; "marginl"; "marginr";
          "marginv"; "effect"; "text"]%string.

Definition sample_dialogue : jsstring :=
  js "Dialogue: 0,0:00:01.00,0:00:03.00,Default,,0,0,0,,{\b1}Hello{\b0} world".

Definition sample_cue : Dialogue :=
  {| start := js "00:00:01.000"; finish := js "00:00:03.000";
     text := js "<b>Hello</b> world" |}.

Definition sample_events : list jsstring :=
  [js "[Events]"; events_format; sample_dialogue].

(** The same events behind a style section that defines the style the
    dialogue names, as ASS files usually do. *)
Definition styled_lines : list jsstring :=
  [js "[V4+ Styles]";
   js "Format: Name, Fontname, Fontsize, PrimaryColour, SecondaryColour, OutlineColour, BackColour, Bold, Italic";
   js "Style: Default,Arial,20,&H00FFFFFF,&H000000FF,&H00000000,&H00000000,0,0";
   []] ++ sample_events.

End Ass.

(** ** The subtitles listing (the [subtitles] route of server.js, from the
    ranked results to the response; the earlier exits of the route answer
    an empty list) *)

Module Listing.

Import Encoding.

(** A search result, with the fields the listing reads ([id] is the text
    the parser has matched, so [String(sub.id)] is [id] itself). *)
Record Sub := {
  id : jsstring;
  linkFile : jsstring;
  title : jsstring;
  version : option jsstring;
  lang : jsstring;
}.

Record Scored := { sub : Sub; score : Z }.

(** A custom subtitle as [r2GetCustomSubs] lists it. *)
Record CustomSub := { key : jsstring; filename : jsstring; label : jsstring }.

(** An element of the [subtitles] array of the response; [SubEncoding] is
    ['UTF-8'] in all of them. *)
Record Entry := {
  e_id : jsstring;
  e_url : jsstring;
  e_lang : jsstring;
  e_SubFormat : jsstring;
}.

(** [a || b] on strings where [a] may be [null]. *)
Definition or_else (a : option jsstring) (b : jsstring) : jsstring :=
  match a with
  | Some ((_ :: _) as v) => v
  | _ => b
  end.

(** [`${n}`] *)
Definition decimal (n : nat) : jsstring :=
  js (NilEmpty.string_of_uint (Nat.to_uint n)).

Definition NUM_EMOJI : list jsstring :=
  map js_utf8 ["0️⃣"; "1️⃣"; "2️⃣"; "3️⃣"; "4️⃣"; "5️⃣"; "6️⃣"; "7️⃣"; "8️⃣";
               "9️⃣"; "🔟"]%string.

Definition numberEmoji (n : nat) : jsstring :=
  match NUM_EMOJI !! n with
  | Some e => e
  | None => decimal n
  end.

Definition getQualityEmoji (version : jsstring) : jsstring :=
  let v := toLowerCase version in
  let has w := includes v (js w) in
  if has "remux"%string then js_utf8 "💎"
  else if has "bluray"%string || has "blu-ray"%string || has "bdrip"%string
          || has "brrip"%string || has "2160p"%string || has "4k"%string
  then js_utf8 "🟢"
  else if has "web-dl"%string || has "webdl"%string || has "webrip"%string
          || has "web"%string
  then js_utf8 "🟡"
  else if has "hdtv"%string then js_utf8 "🟠"
  else if has "dvdrip"%string || has "dvd"%string then js_utf8 "🔴"
  else if has "cam"%string || has "telesync"%string then js_utf8 "⚫"
  else [].

Definition buildLabel (s : Sub) (score : Z) (hasReleaseTags : bool) : jsstring :=
  let label := or_else (version s) (title s) in
  if hasReleaseTags && (0 <? score)%Z then js_utf8 "⭐ " ++ label else label.

(** [Array.prototype.sort] is stable: among the permutations a consistent
    comparator accepts as sorted it yields the one that keeps equal elements
    in their order. *)
Fixpoint insert_by {A} (cmp : A -> A -> Z) (x : A) (l : list A) : list A :=
  match l with
  | [] => [x]
  | y :: tl => if (cmp x y <=? 0)%Z then x :: l else y :: insert_by cmp x tl
  end.

Definition sort_by {A} (cmp : A -> A -> Z) (l : list A) : list A :=
  foldr (insert_by cmp) [] l.

Section Route.

(** [encodeURIComponent] throws a [URIError] on a lone surrogate: [None]. *)
Variable encodeURIComponent : jsstring -> option jsstring.

Variable r2CachedIds : gset jsstring.
Variable host configStr customImdbId : jsstring.
Variable isOmni hasReleaseTags : bool.

Definition cached (s : Sub) : bool := bool_decide (id s ∈ r2CachedIds).

(** The comparator of the Omni ordering. *)
Definition omni_cmp (a b : Scored) : Z :=
  let rank x :=
    ((if cached (sub x) then 2 else 0)
     + (if (0 <? score x)%Z && hasReleaseTags then 1 else 0))%Z in
  if (rank b - rank a =? 0)%Z then (score b - score a)%Z
  else (rank b - rank a)%Z.

Definition ranked (scoredResults : list Scored) : list Scored :=
  if isOmni then sort_by omni_cmp scoredResults else scoredResults.

Definition sub_url (s : Sub) : option jsstring :=
  link ← encodeURIComponent (linkFile s);
  Some (host ++ js "/sub/" ++ configStr ++ js "/" ++ id s ++ js "/" ++ link).

(** The callback of [scoredResults.slice(0, 10).map(...)]; [omniCounters]
    is threaded through the calls. *)
Definition site_entry (omniCounters : gmap jsstring nat) (x : Scored)
  : option (Entry * gmap jsstring nat) :=
  let s := sub x in
  let icon := if cached s then js_utf8 "✅" else js_utf8 "⬇️" in
  if isOmni then
    let star := if hasReleaseTags && (0 <? score x)%Z then js_utf8 "⭐" else [] in
    let quality := getQualityEmoji (or_else (version s) (title s)) in
    let groupKey := icon ++ star ++ quality in
    let count := S (default 0%nat (omniCounters !! groupKey)) in
    url ← sub_url s;
    Some ({| e_id := js "titulky-" ++ id s; e_url := url;
             e_lang := groupKey ++ numberEmoji count;
             e_SubFormat := js "vtt" |},
          <[groupKey := count]> omniCounters)
  else
    let label := buildLabel s (score x) hasReleaseTags in
    let language :=
      if eqb (lang s) (js "cze") then js_utf8 "Čeština"
      else if eqb (lang s) (js "slk") then js_utf8 "Slovenčina"
      else lang s in
    url ← sub_url s;
    Some ({| e_id := js "titulky-" ++ id s; e_url := url;
             e_lang := icon ++ js " " ++ or_else (Some label) language;
             e_SubFormat := js "srt" |},
          omniCounters).

Fixpoint site_entries (omniCounters : gmap jsstring nat) (l : list Scored)
  : option (list Entry * gmap jsstring nat) :=
  match l with
  | [] => Some ([], omniCounters)
  | x :: rest =>
      '(e, c1) ← site_entry omniCounters x;
      '(es, c2) ← site_entries c1 rest;
      Some (e :: es, c2)
  end.

(** [cs.filename.split('.').pop().toLowerCase()] *)
Definition extension (name : jsstring) : jsstring :=
  toLowerCase (default [] (last (split_on 46 name))).

(** One turn of the loop over the custom subtitles. *)
Definition custom_entry (omniCounters : gmap jsstring nat) (cs : CustomSub)
  : option (Entry * gmap jsstring nat) :=
  let ext := extension (filename cs) in
  let isAssType := eqb ext (js "ass") || eqb ext (js "ssa") in
  name ← encodeURIComponent (filename cs);
  let '(subFormat, subUrl) :=
    if isOmni && isAssType then
      (ext, host ++ js "/custom-sub-raw/" ++ customImdbId ++ js "/" ++ name)
    else
      (if isAssType || eqb ext (js "vtt") then js "vtt" else js "srt",
       host ++ js "/custom-sub/" ++ customImdbId ++ js "/" ++ name) in
  if isOmni then
    let pin := js_utf8 "📌" in
    let count := S (default 0%nat (omniCounters !! pin)) in
    Some ({| e_id := js "custom-" ++ key cs; e_url := subUrl;
             e_lang := pin ++ numberEmoji count; e_SubFormat := subFormat |},
          <[pin := count]> omniCounters)
  else
    Some ({| e_id := js "custom-" ++ key cs; e_url := subUrl;
             e_lang := js_utf8 "📌 " ++ label cs; e_SubFormat := subFormat |},
          omniCounters).

(** The loop [for (const cs of customSubs) ... subtitles.unshift(...)]. *)
Fixpoint add_customs (omniCounters : gmap jsstring nat) (subtitles : list Entry)
    (customSubs : list CustomSub) : option (list Entry) :=
  match customSubs with
  | [] => Some subtitles
  | cs :: rest =>
      '(e, c1) ← custom_entry omniCounters cs;
      add_customs c1 (e :: subtitles) rest
  end.

(** The body of the response, [res.json({ subtitles })]; an exception
    takes the [catch] branch, which answers [{ subtitles: [] }]. *)
Definition subtitles_response (scoredResults : list Scored)
    (customSubs : list CustomSub) : list Entry :=
  default []
    ('(subtitles, omniCounters) ← site_entries ∅ (take 10 (ranked scoredResults));
     add_customs omniCounters subtitles customSubs).

End Route.

(** The identifiers by which the entries tell their origin. *)
Definition site_id (x : Scored) : jsstring := js "titulky-" ++ id (sub x).
Definition custom_id (cs : CustomSub) : jsstring := js "custom-" ++ key cs.

(** An entry that came from the search of the site. *)
Definition from_site (e : Entry) : bool := startsWith (e_id e) (js "titulky-").

End Listing.

(** ** The site client (lib/titulkyClient.js) *)

Module Client.

(** *** [search]

    [search] is a program over two awaited calls, [this.login()] and
    [this._searchStandard(title)]; what they answer is up to the site. *)

Section Search.

(** The objects [_parseSearchResults] builds. *)
Variable Result : Type.

Inductive prog (A : Type) :=
  | Ret (a : A)
  | Login (k : bool -> prog A)
  | SearchStandard (title : jsstring) (k : list Result -> prog A).
Arguments Ret {A} a.
Arguments Login {A} k.
Arguments SearchStandard {A} title k.

(** The loop [for (const title of titles)]. *)
Fixpoint search_loop (titles : list jsstring) : prog (list Result) :=
  match titles with
  | [] => Ret []
  | title :: rest =>
      if (length title <? 2)%nat then search_loop rest
      else SearchStandard title (fun results =>
             if (0 <? length results)%nat then Ret results
             else search_loop rest)
  end.

Definition search (titles : list jsstring) : prog (list Result) :=
  Login (fun _ => search_loop titles).

(** The calls a run makes, in order. *)
Inductive call := CLogin | CSearch (title : jsstring).

(** The site as seen from the client: each call is answered from the
    current state of the world, or fails ([None]: the request is rejected
    and, there being no [try] in [search], so is the whole call). *)
Record site (W : Type) := {
  on_login : W -> option bool * W;
  on_search : jsstring -> W -> option (list Result) * W;
}.
Arguments on_login {W} s w.
Arguments on_search {W} s title w.

Fixpoint run {W A} (env : site W) (p : prog A) (w : W)
  : option A * W * list call :=
  match p with
  | Ret a => (Some a, w, [])
  | Login k =>
      match on_login env w with
      | (Some ok, w') =>
          let '(r, w'', log) := run env (k ok) w' in (r, w'', CLogin :: log)
      | (None, w') => (None, w', [CLogin])
      end
  | SearchStandard title k =>
      match on_search env title w with
      | (Some results, w') =>
          let '(r, w'', log) := run env (k results) w' in
          (r, w'', CSearch title :: log)
      | (None, w') => (None, w', [CSearch title])
      end
  end.

(** The contract in the words of the specification: the candidates of at
    least two code units are queried in order, and the first answer that
    is not empty is the result. *)
Fixpoint cascade {W} (env : site W) (candidates : list jsstring) (w : W)
  : option (list Result) * W * list call :=
  match candidates with
  | [] => (Some [], w, [])
  | title :: rest =>
      match on_search env title w with
      | (Some [], w') =>
          let '(r, w'', log) := cascade env rest w' in
          (r, w'', CSearch title :: log)
      | (Some results, w') => (Some results, w', [CSearch title])
      | (None, w') => (None, w', [CSearch title])
      end
  end.

Definition usable (title : jsstring) : bool := (2 <=? length title)%nat.

Definition search_spec {W} (env : site W) (titles : list jsstring) (w : W)
  : option (list Result) * W * list call :=
  match on_login env w with
  | (Some _, w') =>
      let '(r, w'', log) := cascade env (List.filter usable titles) w' in
      (r, w'', CLogin :: log)
  | (None, w') => (None, w', [CLogin])
  end.

Definition is_login (c : call) : bool :=
  match c with CLogin => true | CSearch _ => false end.

(** A site that accepts the login and whose answer to a query depends on
    the title alone. *)
Definition steady_site (answers : jsstring -> list Result) : site unit :=
  {| on_login := fun w => (Some true, w);
     on_search := fun title w => (Some (answers title), w) |}.

(** The answer to the first usable candidate whose answer is not empty. *)
Definition first_hit (answers : jsstring -> list Result) (titles : list jsstring)
  : list Result :=
  match find (fun t => usable t && (0 <? length (answers t))%nat) titles with
  | Some t => answers t
  | None => []
  end.

End Search.

Arguments Ret {Result A} a.
Arguments Login {Result A} k.
Arguments SearchStandard {Result A} title k.
Arguments on_login {Result W} s w.
Arguments on_search {Result W} s title w.
Arguments Build_site {Result W} on_login on_search.
Arguments search_loop {Result} titles.
Arguments search {Result} titles.
Arguments run {Result W A} env p w.
Arguments cascade {Result W} env candidates w.
Arguments search_spec {Result W} env titles w.
Arguments steady_site {Result} answers.
Arguments first_hit {Result} answers titles.

(** *** [login] and [_doLogin]

    The session and the login attempts ever started.  An attempt is the
    promise of one [_doLogin()] call; it is pending until its request is
    answered. *)

Inductive outcome := Resolved (ok : bool) | Rejected.

Record session := {
  username : jsstring;
  loggedIn : bool;
  lastLoginTime : Z;
  loginPromise : option nat;
  (** the attempts that are settled, each with its outcome *)
  settled : gmap nat outcome;
  (** the number of [_doLogin()] calls so far *)
  attempts : nat;
  (** the number of login requests sent to the site so far *)
  posts : nat;
}.

Definition new_session (user : jsstring) : session :=
  {| username := user; loggedIn := false; lastLoginTime := 0;
     loginPromise := None; settled := ∅; attempts := 0; posts := 0 |}.

(** [this.loggedIn && Date.now() - this.lastLoginTime < 30 * 60 * 1000] *)
Definition fresh (now : Z) (s : session) : bool :=
  loggedIn s && (now - lastLoginTime s <? 30 * 60 * 1000)%Z.

(** What a caller of [login()] has in hand when the call returns to the
    event loop: the value [true], or an attempt to await.  The caller that
    started the attempt is the one inside [try ... finally]. *)
Inductive pending_call :=
  | Returned (ok : bool)
  | Awaits (attempt : nat) (starter : bool).

(** [_doLogin()] up to its first [await]: without a user name it returns
    [false] at once, otherwise it sends the login request. *)
Definition doLogin_start (s : session) : session :=
  let p := attempts s in
  match username s with
  | [] =>
      {| username := username s; loggedIn := loggedIn s;
         lastLoginTime := lastLoginTime s; loginPromise := loginPromise s;
         settled := <[p := Resolved false]> (settled s);
         attempts := S p; posts := posts s |}
  | _ :: _ =>
      {| username := username s; loggedIn := loggedIn s;
         lastLoginTime := lastLoginTime s; loginPromise := loginPromise s;
         settled := settled s; attempts := S p; posts := S (posts s) |}
  end.

Definition set_loginPromise (v : option nat) (s : session) : session :=
  {| username := username s; loggedIn := loggedIn s;
     lastLoginTime := lastLoginTime s; loginPromise := v;
     settled := settled s; attempts := attempts s; posts := posts s |}.

(** [login()] up to its first [await]. *)
Definition login (now : Z) (s : session) : pending_call * session :=
  if fresh now s then (Returned true, s)
  else match loginPromise s with
       | Some p => (Awaits p false, s)
       | None =>
           let p := attempts s in
           (Awaits p true, set_loginPromise (Some p) (doLogin_start s))
       end.

(** The answer of the site to the login request, as [_doLogin] reads it:
    the body contains [BadLogin] or not, or the request failed. *)
Inductive answer := BadLogin | Welcome | Failed.

(** [_doLogin()] after its [await], for attempt [p]. *)
Definition doLogin_finish (p : nat) (a : answer) (now : Z) (s : session) : session :=
  match a with
  | BadLogin =>
      {| username := username s; loggedIn := false;
         lastLoginTime := lastLoginTime s; loginPromise := loginPromise s;
         settled := <[p := Resolved false]> (settled s);
         attempts := attempts s; posts := posts s |}
  | Welcome =>
      {| username := username s; loggedIn := true;
         lastLoginTime := now; loginPromise := loginPromise s;
         settled := <[p := Resolved true]> (settled s);
         attempts := attempts s; posts := posts s |}
  | Failed =>
      {| username := username s; loggedIn := loggedIn s;
         lastLoginTime := lastLoginTime s; loginPromise := loginPromise s;
         settled := <[p := Rejected]> (settled s);
         attempts := attempts s; posts := posts s |}
  end.

(** [login()] after its [await]: the starter leaves through [finally]. *)
Definition login_resume (starter : bool) (s : session) : session :=
  if starter then set_loginPromise None s else s.

(** The session together with the callers that are waiting. *)
Record world := { sess : session; waiting : list (nat * bool) }.

Inductive event :=
  | ECall (now : Z)
  | EAnswer (p : nat) (a : answer) (now : Z)
  | EResume (i : nat).

(** One turn of the event loop; [None] when the event cannot happen in
    this state. *)
Definition step (e : event) (w : world) : option world :=
  match e with
  | ECall now =>
      match login now (sess w) with
      | (Returned _, s) => Some {| sess := s; waiting := waiting w |}
      | (Awaits p starter, s) =>
          Some {| sess := s; waiting := waiting w ++ [(p, starter)] |}
      end
  | EAnswer p a now =>
      if bool_decide (p < attempts (sess w))%nat
         && bool_decide (settled (sess w) !! p = None)
      then Some {| sess := doLogin_finish p a now (sess w); waiting := waiting w |}
      else None
  | EResume i =>
      match waiting w !! i with
      | Some (p, starter) =>
          match settled (sess w) !! p with
          | Some _ =>
              Some {| sess := login_resume starter (sess w);
                      waiting := delete i (waiting w) |}
          | None => None
          end
      | None => None
      end
  end.

Fixpoint steps (es : list event) (w : world) : option world :=
  match es with
  | [] => Some w
  | e :: rest => w' ← step e w; steps rest w'
  end.

(** An attempt is in flight when it was started and is not settled. *)
Definition in_flight (s : session) (p : nat) : Prop :=
  (p < attempts s)%nat ∧ settled s !! p = None.

(** The callers waiting inside [try ... finally]. *)
Definition starters (waiting : list (nat * bool)) : list (nat * bool) :=
  List.filter snd waiting.

(** What holds of the session between any two turns of the event loop:
    an attempt in flight is the one [loginPromise] refers to, and so is the
    attempt of a caller inside [try ... finally], of which there is at
    most one; and [loginPromise] refers to an attempt only as long as the
    caller that started it is inside [try ... finally]. *)
Record session_inv (w : world) : Prop := {
  inv_flight : ∀ q, in_flight (sess w) q → loginPromise (sess w) = Some q;
  inv_starter : ∀ p, In (p, true) (waiting w) → loginPromise (sess w) = Some p;
  inv_single : (length (starters (waiting w)) ≤ 1)%nat;
  inv_promise : ∀ p, loginPromise (sess w) = Some p → In (p, true) (waiting w);
  inv_settled : ∀ p, is_Some (settled (sess w) !! p) → (p < attempts (sess w))%nat;
}.

(** The world of a new client, and the events of the witness below: a
    first caller starts attempt 0 at time 1000 and a second one joins it;
    the site answers at time 2000, and both callers go on. *)
Definition new_world (user : jsstring) : world :=
  {| sess := new_session user; waiting := [] |}.

Definition sample_events : list event :=
  [ECall 1000; ECall 1000; EAnswer 0 Welcome 2000; EResume 0; EResume 0].

End Client.

(** ** Serving a subtitle (the [/sub/:config/:subId/:linkFile] route) *)

Module Serve.

Import Encoding Srt.

(** [decodeConfig(req.params.config)], of which the route reads [omni]. *)
Record Config := { omni : bool }.

Record Request := {
  config : option Config;
  subId : jsstring;
  linkFile : jsstring;
}.

Definition cacheKey (r : Request) : jsstring := subId r ++ js "-" ++ linkFile r.

(** An entry of [subtitleCache]. *)
Record Cached := { content : jsstring; filename : jsstring; time : Z }.

(** An extracted file, as [downloadSubtitle] returns them. *)
Record File := { name : jsstring; data : list byte }.

(** What the route has done to [res]: the status, the headers it has set
    itself, in order, and the body sent. *)
Record Response := {
  status : N;
  headers : list (jsstring * jsstring);
  body : jsstring;
}.

Definition SUBTITLE_CACHE_TTL : Z := 60 * 60 * 1000.

Definition limit_text : jsstring :=
  js_utf8 "Překročili jste denní limit stažení titulků z Titulky.com. Stáhněte titulky které jsou v cachi (označené ✅) nebo počkejte na reset limitu do dalšího dne.".

(** [limitMsg] *)
Definition limitMsg (isOmni : bool) : jsstring :=
  if isOmni then
    js "WEBVTT" ++ nl ++ nl ++ js "1" ++ nl ++ js "00:00:01.000 --> 00:00:30.000"
    ++ nl ++ limit_text ++ nl
  else
    js "1" ++ nl ++ js "00:00:01,000 --> 00:00:30,000" ++ nl ++ limit_text ++ nl.

Definition vtt_type : jsstring := js "text/vtt; charset=utf-8".
Definition plain_type : jsstring := js "text/plain; charset=utf-8".

Definition limit_response (isOmni : bool) : Response :=
  {| status := 200;
     headers := [(js "Content-Type", if isOmni then vtt_type else plain_type)];
     body := limitMsg isOmni |}.

(** [res.setHeader] rejects a value with a code unit outside tab,
    U+0020..U+007E and U+0080..U+00FF. *)
Definition header_ok (v : jsstring) : bool :=
  forallb (fun c => (c =? 9) || in_range 32 126 c || in_range 128 255 c) v.

(** [filename.replace(/\.srt$/i, '.vtt')] *)
Definition vtt_name (filename : jsstring) : jsstring :=
  match strip_ci (rev (js ".srt")) (rev filename) with
  | Some stem => rev stem ++ js ".vtt"
  | None => filename
  end.

(** The handler of one request, between two [await]s.  It ends with a
    response, or without one when [sendSub] throws outside the [try]
    block. *)
Inductive pc :=
  | Start
  | AwaitR2
  | AwaitLock (p : nat)
  | AwaitClient (p : nat)
  | AwaitDownload (p : nat)
  | Done (r : Response)
  | Unanswered.

(** What [getClient(config)] comes to: a client, [null], or a rejection
    (a request of the login has failed). *)
Inductive client_answer := GotClient | NoClient | ClientError.

(** What [client.downloadSubtitle(subId, decoded)] comes to: the extracted
    files, [null] (CAPTCHA, no link, too small, bad archive), or a
    rejection (a request has failed or timed out). *)
Inductive download_answer :=
  | Files (files : list File)
  | NoFiles
  | DownloadError.

(** What the event loop delivers to a handler. *)
Inductive event :=
  | Arrive
  | R2Answer (r2Cached : option (jsstring * jsstring))
  | LockReleased
  | ClientAnswer (a : client_answer)
  | DownloadAnswer (d : download_answer).

(** The module state of server.js and the handlers under way.  A lock is
    the promise stored in [downloadLocks]; promises are numbered as they
    are created, and [resolved] holds those whose [resolveLock] was called. *)
Record state := {
  subtitleCache : gmap jsstring Cached;
  downloadLocks : gmap jsstring nat;
  resolved : gset nat;
  promises : nat;
  (** the calls of [client.downloadSubtitle]: the handler and its arguments *)
  fetches : list (nat * jsstring * jsstring);
  (** the calls of [r2Put] *)
  puts : list (jsstring * jsstring * jsstring);
  handlers : list (Request * pc);
}.

Definition init (reqs : list Request) : state :=
  {| subtitleCache := ∅; downloadLocks := ∅; resolved := ∅; promises := 0;
     fetches := []; puts := []; handlers := map (fun r => (r, Start)) reqs |}.

Section Route.

(** [encodeURIComponent] and [decodeURIComponent] throw a [URIError] on
    malformed input: [None]. *)
Variable encodeURIComponent : jsstring -> option jsstring.
Variable decodeURIComponent : jsstring -> option jsstring.
Variable utf16le_decode : list byte -> jsstring.
Variable win1250_decode : list byte -> jsstring.

(** [sendSub]: the response, or the headers set before it threw. *)
Definition sendSub (isOmni : bool) (content filename : jsstring)
  : Response + list (jsstring * jsstring) :=
  if isOmni then
    match encodeURIComponent (vtt_name filename) with
    | Some enc =>
        let disposition := js "inline; filename=" ++ [34] ++ enc ++ [34] in
        if header_ok disposition then
          inl {| status := 200;
                 headers := [(js "Content-Disposition", disposition);
                             (js "Content-Type", vtt_type)];
                 body := srtToVtt content |}
        else inr []
    | None => inr []
    end
  else
    let disposition := js "attachment; filename=" ++ [34] ++ filename ++ [34] in
    if header_ok disposition then
      inl {| status := 200;
             headers := [(js "Content-Type", plain_type);
                         (js "Content-Disposition", disposition)];
             body := content |}
    else inr [(js "Content-Type", plain_type)].

Definition set_locks (l : gmap jsstring nat) (st : state) : state :=
  {| subtitleCache := subtitleCache st; downloadLocks := l;
     resolved := resolved st; promises := promises st;
     fetches := fetches st; puts := puts st; handlers := handlers st |}.

Definition set_cache (c : gmap jsstring Cached) (st : state) : state :=
  {| subtitleCache := c; downloadLocks := downloadLocks st;
     resolved := resolved st; promises := promises st;
     fetches := fetches st; puts := puts st; handlers := handlers st |}.

(** [resolveLock()] of the promise [p]. *)
Definition resolveLock (p : nat) (st : state) : state :=
  {| subtitleCache := subtitleCache st; downloadLocks := downloadLocks st;
     resolved := {[p]} ∪ resolved st; promises := promises st;
     fetches := fetches st; puts := puts st; handlers := handlers st |}.

(** The two statements that release the lock:
    [downloadLocks.delete(subId); resolveLock();] *)
Definition release (r : Request) (p : nat) (st : state) : state :=
  resolveLock p (set_locks (delete (subId r) (downloadLocks st)) st).

(** The [catch] block: what is in [downloadLocks] under the id is deleted,
    and the answer is 500. *)
Definition catch (r : Request) (hs : list (jsstring * jsstring)) (st : state)
  : pc * state :=
  (Done {| status := 500; headers := hs; body := js "Download failed" |},
   set_locks (delete (subId r) (downloadLocks st)) st).

(** Creating the lock promise and calling [getClient]. *)
Definition acquire (r : Request) (st : state) : pc * state :=
  let p := promises st in
  (AwaitClient p,
   {| subtitleCache := subtitleCache st;
      downloadLocks := <[subId r := p]> (downloadLocks st);
      resolved := resolved st; promises := S p;
      fetches := fetches st; puts := puts st; handlers := handlers st |}).

(** One stretch of the handler [i] of request [r], from its state [at_]
    on the event [e] at time [now]; [None] when the event is not the one
    the handler is waiting for. *)
Definition handle (now : Z) (i : nat) (r : Request) (at_ : pc) (e : event)
    (st : state) : option (pc * state) :=
  match config r with
  | None =>
      match at_, e with
      | Start, Arrive =>
          Some (Done {| status := 400; headers := []; body := js "Invalid config" |}, st)
      | _, _ => None
      end
  | Some cfg =>
      let isOmni := omni cfg in
      match at_, e with
      | Start, Arrive =>
          match subtitleCache st !! cacheKey r with
          | Some cached =>
              if (now - time cached <? SUBTITLE_CACHE_TTL)%Z then
                match sendSub isOmni (content cached) (filename cached) with
                | inl resp => Some (Done resp, st)
                | inr _ => Some (Unanswered, st)
                end
              else Some (AwaitR2, set_cache (delete (cacheKey r) (subtitleCache st)) st)
          | None => Some (AwaitR2, st)
          end
      | AwaitR2, R2Answer (Some (c, f)) =>
          let st' := set_cache (<[cacheKey r := {| content := c; filename := f; time := now |}]>
                                  (subtitleCache st)) st in
          match sendSub isOmni c f with
          | inl resp => Some (Done resp, st')
          | inr _ => Some (Unanswered, st')
          end
      | AwaitR2, R2Answer None =>
          match downloadLocks st !! subId r with
          | Some p => Some (AwaitLock p, st)
          | None => Some (acquire r st)
          end
      | AwaitLock p, LockReleased =>
          if bool_decide (p ∈ resolved st) then
            match subtitleCache st !! cacheKey r with
            | Some cached =>
                match sendSub isOmni (content cached) (filename cached) with
                | inl resp => Some (Done resp, st)
                | inr hs => Some (catch r hs st)
                end
            | None => Some (acquire r st)
            end
          else None
      | AwaitClient p, ClientAnswer GotClient =>
          match decodeURIComponent (linkFile r) with
          | Some decoded =>
              Some (AwaitDownload p,
                    {| subtitleCache := subtitleCache st;
                       downloadLocks := downloadLocks st;
                       resolved := resolved st; promises := promises st;
                       fetches := fetches st ++ [(i, subId r, decoded)];
                       puts := puts st; handlers := handlers st |})
          | None => Some (catch r [] st)
          end
      | AwaitClient p, ClientAnswer NoClient =>
          Some (Done {| status := 500; headers := []; body := js "Login failed" |},
                release r p st)
      | AwaitClient p, ClientAnswer ClientError => Some (catch r [] st)
      | AwaitDownload p, DownloadAnswer (Files (file :: _)) =>
          let utf8Content := ensureUtf8 utf16le_decode win1250_decode (data file) in
          let st1 :=
            {| subtitleCache :=
                 <[cacheKey r := {| content := utf8Content; filename := name file;
                                    time := now |}]> (subtitleCache st);
               downloadLocks := downloadLocks st;
               resolved := resolved st; promises := promises st;
               fetches := fetches st;
               puts := puts st ++ [(subId r, utf8Content, name file)];
               handlers := handlers st |} in
          let st2 := release r p st1 in
          match sendSub isOmni utf8Content (name file) with
          | inl resp => Some (Done resp, st2)
          | inr hs => Some (catch r hs st2)
          end
      | AwaitDownload p, DownloadAnswer (Files []) | AwaitDownload p, DownloadAnswer NoFiles =>
          Some (Done (limit_response isOmni), release r p st)
      | AwaitDownload p, DownloadAnswer DownloadError => Some (catch r [] st)
      | _, _ => None
      end
  end.

Definition set_handler (i : nat) (r : Request) (at_ : pc) (st : state) : state :=
  {| subtitleCache := subtitleCache st; downloadLocks := downloadLocks st;
     resolved := resolved st; promises := promises st;
     fetches := fetches st; puts := puts st;
     handlers := <[i := (r, at_)]> (handlers st) |}.

(** What a handler has answered once [sendSub] is through, be it by the
    [catch] block. *)
Definition served (isOmni : bool) (content filename : jsstring) : pc :=
  match sendSub isOmni content filename with
  | inl resp => Done resp
  | inr hs => Done {| status := 500; headers := hs; body := js "Download failed" |}
  end.

(** One turn of the event loop: the event [e] reaches handler [i]. *)
Definition step (now : Z) (i : nat) (e : event) (st : state) : option state :=
  '(r, at_) ← handlers st !! i;
  '(at', st') ← handle now i r at_ e st;
  Some (set_handler i r at' st').

Fixpoint run (turns : list (Z * nat * event)) (st : state) : option state :=
  match turns with
  | [] => Some st
  | (now, i, e) :: rest => st' ← step now i e st; run rest st'
  end.

End Route.

(** The handler [i] has called [downloadSubtitle] and awaits its answer. *)
Definition fetching (st : state) (i : nat) : Prop :=
  ∃ r p, handlers st !! i = Some (r, AwaitDownload p).

Definition pc_of (st : state) (i : nat) : option pc := snd <$> handlers st !! i.

(** *** What holds between two handlers of requests for one id *)

(** The lock promise a handler has created and not yet let go. *)
Definition lock_holder (at_ : pc) : option nat :=
  match at_ with
  | AwaitClient q | AwaitDownload q => Some q
  | _ => None
  end.

Definition finished (at_ : pc) : bool :=
  match at_ with
  | Done _ | Unanswered => true
  | _ => false
  end.

(** The number of [downloadSubtitle] calls of handler [i]. *)
Definition calls (i : nat) (st : state) : nat :=
  length (List.filter (fun x => Nat.eqb x.1.1 i) (fetches st)).

(** The entry of [downloadLocks] under the id [k] is the promise of the
    handler that holds the lock, which is not resolved; there is no entry
    when neither holds it; both never do. *)
Definition lock_ok (st : state) (k : jsstring) (me ot : pc) : Prop :=
  match lock_holder me, lock_holder ot with
  | Some q, None | None, Some q =>
      downloadLocks st !! k = Some q ∧ (q ∉ resolved st) ∧ (q < promises st)%nat
  | None, None => downloadLocks st !! k = None
  | Some _, Some _ => False
  end.

(** A handler waits for the lock of the other one, who holds it still or
    is through. *)
Definition wait_ok (me ot : pc) : Prop :=
  match me with
  | AwaitLock q => lock_holder ot = Some q ∨ finished ot = true
  | _ => True
  end.

Definition fetched (at_ : pc) (n : nat) : Prop :=
  match at_ with
  | Start | AwaitR2 | AwaitLock _ | AwaitClient _ => n = 0%nat
  | AwaitDownload _ => n = 1%nat
  | Done _ | Unanswered => (n <= 1)%nat
  end.

Record pair_inv (st : state) (k : jsstring) (i j : nat) (me ot : pc) : Prop := {
  inv_lock : lock_ok st k me ot;
  inv_wait_me : wait_ok me ot;
  inv_wait_ot : wait_ok ot me;
  inv_resolved : ∀ q, q ∈ resolved st → (q < promises st)%nat;
  inv_calls_me : fetched me (calls i st);
  inv_calls_ot : fetched ot (calls j st);
  inv_calls : length (fetches st) = (calls i st + calls j st)%nat;
  inv_cache : finished me = false → finished ot = false → subtitleCache st = ∅;
}.

(** The system of the handlers of two requests [a] and [b]. *)
Definition two_inv (a b : Request) (st : state) : Prop :=
  ∃ pa pb, handlers st = [(a, pa); (b, pb)]
           ∧ pair_inv st (subId a) 0 1 pa pb.

(** *** Two requests for one subtitle *)

Definition sample_request : Request :=
  {| config := Some {| omni := false |}; subId := js "123";
     linkFile := js "Iron-Man-123" |}.

Definition sample_file : File := {| name := js "Iron.Man.srt"; data := [x48; x69] |}.

(** The event [e] reaches handler [i] at time [now]. *)
Definition turn (now : Z) (i : nat) (e : event) : Z * nat * event := (now, i, e).

(** The first handler takes the lock and the second one waits for it;
    then the download of the first one fails with an exception. *)
Definition failing_turns : list (Z * nat * event) :=
  [turn 0 0 Arrive; turn 1 0 (R2Answer None);
   turn 2 1 Arrive; turn 3 1 (R2Answer None);
   turn 4 0 (ClientAnswer GotClient);
   turn 5 0 (DownloadAnswer DownloadError)].

(** The same start; then the download of the first handler yields no file
    and the second handler downloads for itself. *)
Definition limited_turns : list (Z * nat * event) :=
  [turn 0 0 Arrive; turn 1 0 (R2Answer None);
   turn 2 1 Arrive; turn 3 1 (R2Answer None);
   turn 4 0 (ClientAnswer GotClient);
   turn 5 0 (DownloadAnswer NoFiles);
   turn 6 1 LockReleased;
   turn 7 1 (ClientAnswer GotClient);
   turn 8 1 (DownloadAnswer (Files [sample_file]))].

(** The start of both: the first handler downloads, the second waits. *)
Definition waiting_turns : list (Z * nat * event) :=
  [turn 0 0 Arrive; turn 1 0 (R2Answer None);
   turn 2 1 Arrive; turn 3 1 (R2Answer None);
   turn 4 0 (ClientAnswer GotClient)].

Definition sample_run (turns : list (Z * nat * event)) : option state :=
  run Some Some (fun _ => []) (fun _ => []) turns
    (init [sample_request; sample_request]).

End Serve.

(** * Properties *)

Import TitleMatch Encoding Srt Ass.

(** ** Strings *)

Lemma startsWith_app (p rest : jsstring) : startsWith (p ++ rest) p = true.
Proof.
  induction p as [|x p IH]; simpl; [done|].
  by rewrite N.eqb_refl.
Qed.

Lemma startsWith_inv (s p : jsstring) :
  startsWith s p = true → ∃ rest, s = p ++ rest.
Proof.
  revert s; induction p as [|x p IH]; intros s H; simpl in *.
  - by exists s.
  - destruct s as [|y s]; [done|].
    apply andb_true_iff in H as [Hxy H].
    apply N.eqb_eq in Hxy as ->.
    destruct (IH _ H) as [rest ->]. by exists rest.
Qed.

Lemma slice_from_app (p rest : jsstring) : slice_from (length p) (p ++ rest) = rest.
Proof. unfold slice_from. by rewrite drop_app_length. Qed.

Lemma eqb_true (a b : jsstring) : eqb a b = true ↔ a = b.
Proof. unfold eqb. by rewrite bool_decide_eq_true. Qed.

Lemma eqb_false (a b : jsstring) : eqb a b = false ↔ a ≠ b.
Proof. unfold eqb. by rewrite bool_decide_eq_false. Qed.

Lemma trimStart_Forall (P : N → Prop) (s : jsstring) :
  Forall P s → Forall P (trimStart s).
Proof.
  induction 1 as [|c s Hc Hs IH]; simpl; [constructor|].
  destruct (is_space c); [done | by constructor].
Qed.

Lemma trim_Forall (P : N → Prop) (s : jsstring) : Forall P s → Forall P (trim s).
Proof.
  intros H. unfold trim, trimEnd.
  apply Forall_rev, trimStart_Forall, Forall_rev, trimStart_Forall, H.
Qed.

(** ** The title filter *)

Ltac unbool :=
  repeat match goal with
  | H : _ && _ = true |- _ => apply andb_true_iff in H as [? ?]
  | H : _ || _ = true |- _ => apply orb_true_iff in H as [?|?]
  | H : (_ <=? _) = true |- _ => apply N.leb_le in H
  | H : (_ =? _) = true |- _ => apply N.eqb_eq in H
  | H : (_ <=? _) = false |- _ => apply N.leb_gt in H
  | H : (_ =? _) = false |- _ => apply N.eqb_neq in H
  end.

Lemma kept_normalize (s : jsstring) : Forall (λ c, kept c = true) (normalize s).
Proof.
  unfold normalize. apply trim_Forall.
  apply Forall_forall. intros c Hc%list_elem_of_In. by apply filter_In in Hc as [_ Hc].
Qed.

Lemma canon_kept (x y : N) :
  is_lower x || is_digit x = true → kept y = true →
  (canon x =? canon y) = (x =? y).
Proof.
  intros Hx Hy.
  destruct (N.eqb_spec x y) as [->|Hne]; [apply N.eqb_refl|].
  apply N.eqb_neq. revert Hx Hy.
  unfold kept, canon, is_space, is_lower, is_digit, in_range.
  intros Hx Hy.
  destruct ((97 <=? x) && (x <=? 122)) eqn:Ex;
    destruct ((97 <=? y) && (y <=? 122)) eqn:Ey; simpl in *; unbool; try lia;
    apply andb_false_iff in Ey as [Ey|Ey]; unbool; lia.
Qed.

Lemma startsWith_ci_kept (r w : jsstring) :
  Forall (λ c, kept c = true) r →
  Forall (λ c, is_lower c || is_digit c = true) w →
  startsWith_ci r w = startsWith r w.
Proof.
  intros Hr Hw. revert r Hr.
  induction Hw as [|x w Hx Hw IH]; intros r Hr; simpl; [done|].
  destruct Hr as [|y r Hy Hr]; [done|].
  by rewrite canon_kept, IH.
Qed.

Lemma release_words_plain (w : jsstring) :
  In w release_words → Forall (λ c, is_lower c || is_digit c = true) w.
Proof.
  intros Hw.
  assert (Hall : forallb (forallb (λ c, is_lower c || is_digit c)) release_words = true)
    by reflexivity.
  rewrite forallb_forall in Hall. specialize (Hall w Hw).
  rewrite forallb_forall in Hall. by apply List.Forall_forall.
Qed.

Lemma year_prefix_spec (r : jsstring) : year_prefix r = true ↔ four_digit_year r.
Proof.
  unfold year_prefix, four_digit_year. split.
  - destruct r as [|a [|b [|c [|d tl]]]]; try done.
    intros H. unbool. by exists a, b, c, d, tl.
  - intros (a & b & c & d & tl & -> & Ha & Hb & Hc & Hd).
    by rewrite Ha, Hb, Hc, Hd.
Qed.

Lemma release_prefix_spec (r : jsstring) :
  Forall (λ c, kept c = true) r →
  release_prefix r = true ↔ release_context r.
Proof.
  intros Hr. unfold release_prefix, release_context.
  rewrite orb_true_iff.
  assert (Hs : season_marker r = true
               ↔ ∃ d tl, r = 115 :: d :: tl ∧ is_digit d = true).
  { unfold season_marker. destruct r as [|a [|d tl]].
    - split; [done | by intros (?&?&?&?)].
    - split; [done | by intros (?&?&?&?)].
    - apply Forall_cons in Hr as [Ha _].
      rewrite N.eqb_sym, canon_kept by done.
      rewrite andb_true_iff, N.eqb_eq. split.
      + intros [<- Hd]. by exists d, tl.
      + by intros (d' & tl' & [= -> -> ->] & Hd). }
  assert (Hw : existsb (startsWith_ci r) release_words = true
               ↔ ∃ w tl, In w release_words ∧ r = w ++ tl).
  { rewrite existsb_exists. split.
    - intros (w & Hw & H).
      rewrite startsWith_ci_kept in H by auto using release_words_plain.
      apply startsWith_inv in H as [tl ->]. by exists w, tl.
    - intros (w & tl & Hw & ->). exists w. split; [done|].
      rewrite startsWith_ci_kept by auto using release_words_plain.
      apply startsWith_app. }
  by rewrite Hs, Hw.
Qed.

Lemma follows_after (after : jsstring) :
  Forall (λ c, kept c = true) after →
  match after with
  | [] => true
  | _ => year_prefix after || release_prefix after
  end = true ↔ follows after.
Proof.
  intros Hk. unfold follows. destruct after as [|c tl] eqn:E; [by intuition|].
  rewrite <- E in *. rewrite orb_true_iff, year_prefix_spec, release_prefix_spec by done.
  subst after. split; [by intuition|]. intros [?|?]; [done | by intuition].
Qed.

(** The filter computes [title_accepts] whenever both texts are present. *)
Lemma isExactTitleMatch_spec (movieName subText : jsstring) :
  movieName ≠ [] → subText ≠ [] →
  isExactTitleMatch movieName subText = true ↔ title_accepts movieName subText.
Proof.
  intros Hm Hs. unfold isExactTitleMatch, title_accepts.
  destruct movieName as [|m0 movieName]; [done|].
  destruct subText as [|s0 subText]; [done|].
  set (movie := normalize (m0 :: movieName)).
  set (sub := normalize (s0 :: subText)).
  assert (Hsub : Forall (λ c, kept c = true) sub) by apply kept_normalize.
  cbv zeta.
  destruct (eqb sub movie) eqn:Heq.
  { apply eqb_true in Heq. by intuition. }
  apply eqb_false in Heq.
  destruct (startsWith sub movie) eqn:Hpre.
  - apply startsWith_inv in Hpre as [rest Hrest].
    rewrite Hrest, slice_from_app.
    assert (Hk : Forall (λ c, kept c = true) (trim rest)).
    { apply trim_Forall. rewrite Hrest in Hsub.
      by apply Forall_app in Hsub as [_ ?]. }
    rewrite follows_after by done. split.
    + intros H. right. by exists rest.
    + intros [H|(rest' & H & Hf)]; [by rewrite <- Hrest in H|].
      by apply app_inv_head in H as <-.
  - split; [done|]. intros [H|(rest & H & _)]; [done|].
    rewrite H, startsWith_app in Hpre. done.
Qed.

(** ** Encoding detection *)

Lemma byte_at_head (buffer : list byte) (b : byte) :
  byte_at buffer 0 = Some (Byte.to_N b) ↔ ∃ rest, buffer = b :: rest.
Proof.
  unfold byte_at. destruct buffer as [|b' rest]; simpl.
  - split; [done | by intros [? ?]].
  - split.
    + intros [= H]. exists rest. f_equal.
      apply Byte.to_of_N_iff in H. rewrite Byte.of_to_N in H. congruence.
    + by intros [? [= -> ->]].
Qed.

Lemma byte_at_tail (b : byte) (rest : list byte) (i : nat) :
  byte_at (b :: rest) (S i) = byte_at rest i.
Proof. done. Qed.

Lemma has_utf8_bom_spec (buffer : list byte) :
  has_utf8_bom buffer = true ↔ utf8_bom buffer.
Proof.
  unfold has_utf8_bom, utf8_bom.
  rewrite !andb_true_iff, !bool_decide_eq_true. split.
  - intros [[H0 H1] H2].
    apply (byte_at_head _ xef) in H0 as [r0 ->].
    rewrite byte_at_tail in H1, H2.
    apply (byte_at_head _ xbb) in H1 as [r1 ->].
    rewrite byte_at_tail in H2.
    apply (byte_at_head _ xbf) in H2 as [r2 ->]. by exists r2.
  - by intros [rest ->].
Qed.

Lemma has_utf16le_bom_spec (buffer : list byte) :
  has_utf16le_bom buffer = true ↔ utf16le_bom buffer.
Proof.
  unfold has_utf16le_bom, utf16le_bom.
  rewrite !andb_true_iff, !bool_decide_eq_true. split.
  - intros [H0 H1].
    apply (byte_at_head _ xff) in H0 as [r0 ->].
    rewrite byte_at_tail in H1.
    apply (byte_at_head _ xfe) in H1 as [r1 ->]. by exists r1.
  - by intros [rest ->].
Qed.

Lemma replacements_spec (str : jsstring) :
  (0 <? replacements str)%nat = true ↔ In replacement str.
Proof.
  unfold replacements. rewrite Nat.ltb_lt.
  induction str as [|c str IH]; cbn [List.filter length In].
  - split; [lia | done].
  - destruct (N.eqb_spec replacement c) as [<-|Hne]; cbn [length].
    + split; [by left | lia].
    + rewrite IH. split; [by right | by intros [?|?]].
Qed.

Lemma isValidUtf8_spec (str : jsstring) :
  isValidUtf8 str = false ↔ looks_misdecoded str.
Proof.
  unfold isValidUtf8, looks_misdecoded, over_two_percent.
  destruct (0 <? replacements str)%nat eqn:Hr.
  - apply replacements_spec in Hr. by intuition.
  - assert (Hn : ¬ In replacement str).
    { intros H%replacements_spec. congruence. }
    destruct (50 <? length str)%nat eqn:Hlen; simpl.
    + apply Nat.ltb_lt in Hlen.
      destruct (N.ltb_spec (2 * N.of_nat (length str)) (100 * N.of_nat (suspicious str))).
      * split; [|done]. intros _. right. split; [done | lia].
      * split; [done|]. intros [?|[_ ?]]; [done | lia].
    + apply Nat.ltb_ge in Hlen. split; [done|]. intros [?|[? _]]; [done | lia].
Qed.

Lemma utf8_run_ascii (bs : list N) :
  Forall (λ b, b < 128) bs → utf8_run Idle bs = bs.
Proof.
  induction 1 as [|b bs Hb _ IH]; simpl; [done|].
  unfold utf8_lead. destruct (N.leb_spec b 0x7F); [|lia].
  simpl. by rewrite IH.
Qed.

Lemma suspicious_ascii (bs : list N) :
  Forall (λ b, b < 128) bs → suspicious bs = 0%nat.
Proof.
  induction 1 as [|a bs Ha Hbs IH]; simpl; [done|].
  destruct bs as [|b tl]; [done|].
  unfold in_range at 1. destruct (N.leb_spec 0xC0 a); [lia|]. done.
Qed.

Lemma plain_ascii_units (buffer : list byte) :
  plain_ascii buffer → Forall (λ b, b < 128) (units_of buffer).
Proof. intros H. unfold units_of. by apply Forall_map. Qed.

(** C7.  [ensureUtf8] decodes a buffer that begins with the UTF-8
    byte-order mark as UTF-8 and one that begins with the UTF-16LE mark as
    UTF-16LE; any other buffer is decoded as UTF-8, unless that text
    contains a replacement character or is longer than 50 code units with
    more than 2% of them matching the mis-decoding pattern, in which case
    the buffer is decoded as CP1250.  A buffer of plain ASCII decodes to
    itself. *)
Theorem ensureUtf8_selects_decoding
    (utf16le_decode win1250_decode : list byte → jsstring) (buffer : list byte) :
  let decode := ensureUtf8 utf16le_decode win1250_decode in
  (utf8_bom buffer → decode buffer = utf8_decode buffer)
  ∧ (utf16le_bom buffer → decode buffer = utf16le_decode buffer)
  ∧ (¬ utf8_bom buffer → ¬ utf16le_bom buffer →
       (looks_misdecoded (utf8_decode buffer) → decode buffer = win1250_decode buffer)
       ∧ (¬ looks_misdecoded (utf8_decode buffer) → decode buffer = utf8_decode buffer))
  ∧ (plain_ascii buffer → decode buffer = units_of buffer).
Proof.
  cbv zeta. unfold ensureUtf8.
  destruct (has_utf8_bom buffer) eqn:H8.
  { apply has_utf8_bom_spec in H8 as H8'. repeat split; try done.
    - intros [rest ->]. by destruct H8' as [? [=]].
    - intros Hascii. destruct H8' as [rest ->].
      apply Forall_cons in Hascii as [Hb _]. by vm_compute in Hb. }
  assert (N8 : ¬ utf8_bom buffer).
  { intros H%has_utf8_bom_spec. congruence. }
  destruct (has_utf16le_bom buffer) eqn:H16.
  { apply has_utf16le_bom_spec in H16 as H16'. repeat split; try done.
    intros Hascii. destruct H16' as [rest ->].
    apply Forall_cons in Hascii as [Hb _]. by vm_compute in Hb. }
  assert (N16 : ¬ utf16le_bom buffer).
  { intros H%has_utf16le_bom_spec. congruence. }
  destruct (isValidUtf8 (utf8_decode buffer)) eqn:Hv.
  - assert (Hn : ¬ looks_misdecoded (utf8_decode buffer)).
    { intros H%isValidUtf8_spec. congruence. }
    repeat split; try done.
    intros Hascii. unfold utf8_decode.
    by apply utf8_run_ascii, plain_ascii_units.
  - apply isValidUtf8_spec in Hv as Hl. repeat split; try done.
    intros Hascii. exfalso.
    apply plain_ascii_units in Hascii.
    unfold utf8_decode in Hl. rewrite utf8_run_ascii in Hl by done.
    destruct Hl as [Hin|[_ Hs]].
    + apply (proj1 (List.Forall_forall _ _) Hascii) in Hin. by vm_compute in Hin.
    + rewrite suspicious_ascii in Hs by done. lia.
Qed.

(** The bytes of "Hi" decode to themselves, and the CP1250 bytes of "Pří"
    go to the CP1250 decoder. *)
Lemma ensureUtf8_selects_decoding_witness :
  ensureUtf8 (λ _, []) (λ _, []) [x48; x69] = [72; 105]
  ∧ ensureUtf8 (λ _, []) (λ _, [80; 345; 237]) [x50; xf8; xed] = [80; 345; 237].
Proof.
  split.
  - apply (ensureUtf8_selects_decoding (λ _, []) (λ _, []) [x48; x69]).
    repeat constructor.
  - apply (ensureUtf8_selects_decoding (λ _, []) (λ _, [80; 345; 237]) [x50; xf8; xed]).
    + by intros [rest [=]].
    + by intros [rest [=]].
    + left. vm_compute. tauto.
Defined.

(** C5 fails at an absent target: the guard at the head of the filter
    rejects, although the normalized candidate starts with the (empty)
    normalized target followed by a four-digit year. *)
Lemma title_filter_absent_target :
  isExactTitleMatch [] (js "2012") = false ∧ title_accepts [] (js "2012").
Proof.
  split; [reflexivity|].
  right. exists (js "2012"). split; [reflexivity|].
  right. left. exists 50, 48, 49, 50, []. by vm_compute.
Qed.

(** C5 (amended).  An empty target or candidate is always rejected.  For
    every target title and candidate text, the filter accepts exactly when
    both are present (not empty) and, after normalizing both, the candidate
    equals the target or starts with it and goes on, after white space,
    with nothing, four digits, or a release-context token.  Target
    "iron man" matches "iron man 2008 bluray" and "iron man", not
    "iron man 2". *)
Theorem title_filter_accepts (movieName subText : jsstring) :
  (isExactTitleMatch movieName subText = true
   ↔ movieName ≠ [] ∧ subText ≠ [] ∧ title_accepts movieName subText)
  ∧ isExactTitleMatch [] subText = false
  ∧ isExactTitleMatch movieName [] = false
  ∧ isExactTitleMatch (js "iron man") (js "iron man 2008 bluray") = true
  ∧ isExactTitleMatch (js "iron man") (js "iron man") = true
  ∧ isExactTitleMatch (js "iron man") (js "iron man 2") = false.
Proof.
  split; [|split; [done|split; [by destruct movieName|by vm_compute]]].
  destruct movieName as [|m movieName]; [split; [done | by intros [? _]]|].
  destruct subText as [|c subText]; [split; [done | by intros (_ & ? & _)]|].
  rewrite isExactTitleMatch_spec by done. split; [done | by intros (_ & _ & ?)].
Qed.

Lemma title_filter_accepts_witness :
  title_accepts (js "Iron Man") (js "iron man s01e02")
  ∧ isExactTitleMatch [] (js "iron man") = false.
Proof.
  pose proof (title_filter_accepts (js "Iron Man") (js "iron man s01e02")) as [H _].
  split.
  - apply H. reflexivity.
  - apply (title_filter_accepts [] (js "iron man")).
Defined.

(** ** SRT to WebVTT *)

Lemma replace_crlf_plain (l rest : jsstring) :
  ¬ In 13 l →
  replace_global crlf (l ++ rest) = l ++ replace_global crlf rest.
Proof.
  unfold replace_global. induction l as [|c l IH]; intros Hl; [done|].
  cbn [app replace_go]. unfold crlf at 1, lit.
  cbn [startsWith]. destruct (N.eqb_spec 13 c) as [<-|Hne].
  - exfalso. apply Hl. by left.
  - cbn [andb]. f_equal. apply IH. intros H. apply Hl. by right.
Qed.

Lemma replace_crlf_break (rest : jsstring) :
  replace_global crlf ([13; 10] ++ rest) = [10] ++ replace_global crlf rest.
Proof. unfold replace_global. destruct rest; reflexivity. Qed.

Lemma replace_crlf_id (s : jsstring) :
  ¬ In 13 s → replace_global crlf s = s.
Proof.
  intros Hs. rewrite <- (app_nil_r s) at 1.
  rewrite replace_crlf_plain by done. by rewrite app_nil_r.
Qed.

Lemma join_lf_no_cr (lines : list jsstring) :
  Forall (λ l, ¬ In 13 l) lines → ¬ In 13 (join [10] lines).
Proof.
  induction 1 as [|l lines Hl Hlines IH]; [by intros []|].
  destruct lines as [|l2 lines]; [done|].
  change (join [10] (l :: l2 :: lines)) with (l ++ [10] ++ join [10] (l2 :: lines)).
  rewrite !in_app_iff. intros [?|[[?|[]]|?]]; [done | done | done].
Qed.

(** Line endings: lines joined by CR LF come out joined by LF. *)
Lemma replace_crlf_lines (lines : list jsstring) :
  Forall (λ l, ¬ In 13 l) lines →
  replace_global crlf (join [13; 10] lines) = join [10] lines.
Proof.
  induction 1 as [|l lines Hl Hlines IH]; [done|].
  destruct lines as [|l2 lines].
  - cbn [join]. rewrite <- (app_nil_r l) at 1.
    rewrite replace_crlf_plain by done. by rewrite app_nil_r.
  - change (join [13; 10] (l :: l2 :: lines))
      with (l ++ [13; 10] ++ join [13; 10] (l2 :: lines)).
    change (join [10] (l :: l2 :: lines))
      with (l ++ [10] ++ join [10] (l2 :: lines)).
    by rewrite replace_crlf_plain, replace_crlf_break, IH.
Qed.

(** Time stamps: the comma before the milliseconds becomes a dot, and the
    scan goes on behind the time stamp. *)
Lemma replace_srt_time (h1 h2 m1 m2 s1 s2 f1 f2 f3 : N) (rest : jsstring) :
  forallb is_digit [h1; h2; m1; m2; s1; s2; f1; f2; f3] = true →
  replace_global srt_time
    ([h1; h2; 58; m1; m2; 58; s1; s2; 44; f1; f2; f3] ++ rest)
  = [h1; h2; 58; m1; m2; 58; s1; s2; 46; f1; f2; f3]
    ++ replace_global srt_time rest.
Proof.
  intros Hd. unfold replace_global.
  cbn [app replace_go]. unfold srt_time at 1. rewrite Hd.
  cbn [andb N.eqb Pos.eqb pred app]. by destruct rest.
Qed.

(** What is not a digit is never the start of a time stamp. *)
Lemma replace_srt_time_other (c : N) (rest : jsstring) :
  is_digit c = false →
  replace_global srt_time (c :: rest) = c :: replace_global srt_time rest.
Proof.
  intros Hc. unfold replace_global. cbn [replace_go].
  assert (srt_time (c :: rest) = None) as ->; [|done].
  unfold srt_time.
  destruct rest as [|? [|? [|? [|? [|? [|? [|? [|? [|? [|? [|? ?]]]]]]]]]]]; try done.
  cbn [forallb]. by rewrite Hc.
Qed.

(** C8.  The conversion of the sample cue, and the three steps of
    [srtToVtt] in general: the output begins with the WEBVTT header; lines
    that end in CR LF come out ending in LF; a time stamp HH:MM:SS,mmm
    comes out as HH:MM:SS.mmm. *)
Theorem srtToVtt_converts :
  srtToVtt (js "1" ++ nl ++ js "00:00:01,000 --> 00:00:02,500" ++ nl
            ++ js "Hello" ++ nl)
  = js "WEBVTT" ++ nl ++ nl ++ js "1" ++ nl
    ++ js "00:00:01.000 --> 00:00:02.500" ++ nl ++ js "Hello" ++ nl
  ∧ (∀ srt, ∃ body,
       srtToVtt srt = js "WEBVTT" ++ nl ++ nl ++ body ++ nl
       ∧ body = trim (replace_global srt_time (replace_global crlf srt)))
  ∧ (∀ lines, Forall (λ l, ¬ In 13 l) lines →
       srtToVtt (join [13; 10] lines) = srtToVtt (join [10] lines)
       ∧ replace_global crlf (join [13; 10] lines) = join [10] lines)
  ∧ (∀ h1 h2 m1 m2 s1 s2 f1 f2 f3 rest,
       forallb is_digit [h1; h2; m1; m2; s1; s2; f1; f2; f3] = true →
       replace_global srt_time
         ([h1; h2; 58; m1; m2; 58; s1; s2; 44; f1; f2; f3] ++ rest)
       = [h1; h2; 58; m1; m2; 58; s1; s2; 46; f1; f2; f3]
         ++ replace_global srt_time rest).
Proof.
  split; [reflexivity|]. split; [|split].
  - intros srt. by eexists.
  - intros lines Hl. split; [|by apply replace_crlf_lines].
    unfold srtToVtt. rewrite replace_crlf_lines by done.
    by rewrite replace_crlf_id by by apply join_lf_no_cr.
  - intros; by apply replace_srt_time.
Qed.

Lemma srtToVtt_converts_witness :
  srtToVtt (join [13; 10] [js "1"; js "Hello"])
  = srtToVtt (join [10] [js "1"; js "Hello"])
  ∧ replace_global srt_time (js "00:00:01,000 -->")
    = js "00:00:01.000" ++ replace_global srt_time (js " -->").
Proof.
  split.
  - apply (proj1 (proj2 (proj2 srtToVtt_converts))).
    repeat constructor; cbn; intuition discriminate.
  - apply (proj2 (proj2 (proj2 srtToVtt_converts)) 48 48 48 48 48 49 48 48 48 (js " -->")).
    reflexivity.
Defined.

(** ** ASS to WebVTT *)

Lemma scan_through_app (sc sc' : scan) (pre rest : list jsstring) :
  scan_through sc pre = Some sc' →
  scan_lines sc (pre ++ rest) = scan_lines sc' rest.
Proof.
  revert sc. induction pre as [|l pre IH]; intros sc H; simpl in *.
  - by injection H as ->.
  - destruct (scan_line sc l) as [sc1|]; [|done]. by apply IH.
Qed.

Lemma style_line_dialogues (sc : scan) (t : jsstring) :
  dialogues (style_line sc t) = dialogues sc.
Proof.
  unfold style_line. by repeat case_match.
Qed.

Lemma dialogue_line_dialogues (sc : scan) (t : jsstring) :
  ∃ more, dialogues (dialogue_line sc t) = dialogues sc ++ more.
Proof.
  unfold dialogue_line.
  repeat case_match; try (by exists []; rewrite app_nil_r).
  all: eexists; reflexivity.
Qed.

Lemma scan_line_dialogues (sc sc' : scan) (line : jsstring) :
  scan_line sc line = Some sc' → ∃ more, dialogues sc' = dialogues sc ++ more.
Proof.
  unfold scan_line.
  repeat (match goal with |- context [if ?b then _ else _] => destruct b end);
    intros [= <-]; try (by exists []; rewrite app_nil_r).
  - exists []. by rewrite app_nil_r, style_line_dialogues.
  - apply dialogue_line_dialogues.
Qed.

(** The cues found so far stay, in their order, whatever follows. *)
Lemma scan_lines_dialogues (sc : scan) (lines : list jsstring) :
  ∃ later, dialogues (scan_lines sc lines) = dialogues sc ++ later.
Proof.
  revert sc. induction lines as [|l lines IH]; intros sc; simpl.
  - exists []. by rewrite app_nil_r.
  - destruct (scan_line sc l) as [sc1|] eqn:E.
    + destruct (scan_line_dialogues _ _ _ E) as [more Hm].
      destruct (IH sc1) as [later Hl]. exists (more ++ later).
      by rewrite Hl, Hm, app_assoc.
    + exists []. by rewrite app_nil_r.
Qed.

Lemma split_on_cons (sep : N) (s : jsstring) :
  ∃ cur rest, split_on sep s = cur :: rest.
Proof.
  destruct s as [|c s]; cbn [split_on]; [by eexists _, _|].
  destruct (c =? sep); [by eexists _, _|].
  destruct (split_on sep s); by eexists _, _.
Qed.

(** Splitting at a separator and joining with it gives the text back. *)
Lemma join_split_on (sep : N) (s : jsstring) : join [sep] (split_on sep s) = s.
Proof.
  induction s as [|c s IH]; [done|].
  cbn [split_on]. destruct (split_on_cons sep s) as (cur & rest & E).
  rewrite E in *. destruct (N.eqb_spec c sep) as [->|Hne].
  - change (join [sep] ([] :: cur :: rest)) with (sep :: join [sep] (cur :: rest)).
    by rewrite IH.
  - destruct rest as [|r2 rest]; cbn [join] in *; by rewrite <- IH.
Qed.

(** An ASS time H:MM:SS.CC comes out as 0H:MM:SS.CC0. *)
Lemma assTimeToVtt_centiseconds (h m1 m2 s1 s2 c1 c2 : N) :
  forallb is_digit [h; m1; m2; s1; s2; c1; c2] = true →
  assTimeToVtt [h; 58; m1; m2; 58; s1; s2; 46; c1; c2]
  = [48; h; 58; m1; m2; 58; s1; s2; 46; c1; c2; 48].
Proof.
  cbn [forallb]. rewrite !andb_true_iff.
  intros (Hh & Hm1 & Hm2 & Hs1 & Hs2 & Hc1 & Hc2 & _).
  unfold assTimeToVtt. cbn [time_match]. unfold time_at.
  repeat (progress (cbn [span_digits N.eqb Pos.eqb];
                    rewrite ?Hh, ?Hm1, ?Hm2, ?Hs1, ?Hs2, ?Hc1, ?Hc2;
                    change (is_digit 58) with false;
                    change (is_digit 46) with false)).
  reflexivity.
Qed.

Lemma replace_plain (m : matcher) (t rest : jsstring) :
  tag_anchored m → plain_text t →
  replace_global m (t ++ rest) = t ++ replace_global m rest.
Proof.
  intros Hm. unfold replace_global. induction 1 as [|c t [H1 H2] _ IH]; [done|].
  cbn [app replace_go]. rewrite Hm by done. by rewrite IH.
Qed.

Lemma replace_plain_id (m : matcher) (t : jsstring) :
  tag_anchored m → plain_text t → replace_global m t = t.
Proof.
  intros Hm Ht. rewrite <- (app_nil_r t) at 1.
  rewrite replace_plain by done. by rewrite app_nil_r.
Qed.

Lemma lit_anchored (x : N) (pat rep : jsstring) :
  x = 123 ∨ x = 92 → tag_anchored (lit (x :: pat) rep).
Proof.
  intros Hx c s H1 H2. unfold lit. cbn [startsWith].
  destruct (N.eqb_spec x c) as [<-|]; [by destruct Hx|done].
Qed.

Lemma color_tag_anchored : tag_anchored color_tag.
Proof.
  intros c s H1 _. unfold color_tag.
  destruct c as [|p]; [done|].
  do 7 (destruct p as [p|p|]; try done).
Qed.

Lemma any_tag_anchored : tag_anchored any_tag.
Proof.
  intros c s H1 _. unfold any_tag.
  destruct c as [|p]; [done|].
  do 7 (destruct p as [p|p|]; try done).
Qed.

Lemma trim_framed (a b : N) (mid : jsstring) :
  is_space a = false → is_space b = false →
  trim (a :: mid ++ [b]) = a :: mid ++ [b].
Proof.
  intros Ha Hb. unfold trim, trimEnd. cbn [trimStart]. rewrite Ha.
  change (a :: mid ++ [b]) with ((a :: mid) ++ [b]).
  rewrite rev_app_distr. cbn [rev app trimStart]. rewrite Hb.
  change (b :: rev mid ++ [a]) with (rev [b] ++ rev (a :: mid)).
  by rewrite <- rev_app_distr, rev_involutive.
Qed.

(** The pair of bold tags around plain text becomes the pair of markup
    tags. *)
Lemma assTextToVtt_bold (t : jsstring) :
  plain_text t →
  assTextToVtt (js "{\b1}" ++ t ++ js "{\b0}") None = js "<b>" ++ t ++ js "</b>".
Proof.
  intros Ht. unfold assTextToVtt.
  assert (H1 : replace_global (tag "b1" "<b>") (js "{\b1}" ++ t ++ js "{\b0}")
               = js "<b>" ++ t ++ js "{\b0}").
  { change (replace_global (tag "b1" "<b>") (js "{\b1}" ++ t ++ js "{\b0}"))
      with (js "<b>" ++ replace_global (tag "b1" "<b>") (t ++ js "{\b0}")).
    rewrite replace_plain; [done | by apply lit_anchored; left | done]. }
  rewrite H1.
  assert (Hb : plain_text (js "<b>" ++ t)).
  { apply Forall_app. split; [|done]. by repeat constructor. }
  assert (H2 : replace_global (tag "b0" "</b>") (js "<b>" ++ t ++ js "{\b0}")
               = js "<b>" ++ t ++ js "</b>").
  { rewrite (app_assoc (js "<b>")).
    rewrite replace_plain; [|by apply lit_anchored; left | done].
    by rewrite <- app_assoc. }
  rewrite H2.
  assert (Hw : plain_text (js "<b>" ++ t ++ js "</b>")).
  { rewrite app_assoc. apply Forall_app. split; [done|]. by repeat constructor. }
  repeat rewrite (replace_plain_id _ (js "<b>" ++ t ++ js "</b>")) by
    (first [done | apply color_tag_anchored | apply any_tag_anchored
           | apply lit_anchored; first [by left | by right]]).
  change (js "<b>" ++ t ++ js "</b>") with (60 :: js "b>" ++ t ++ js "</b>").
  rewrite (app_assoc (js "b>")).
  change (js "</b>") with (js "</b" ++ [62]). rewrite (app_assoc _ _ [62]).
  by apply trim_framed.
Qed.

(** *** A dialogue line, column by column *)

Lemma split_on_app (sep : N) (a b : jsstring) :
  split_on sep (a ++ sep :: b) = split_on sep a ++ split_on sep b.
Proof.
  induction a as [|c a IH]; cbn [app split_on].
  - by rewrite N.eqb_refl.
  - destruct (c =? sep); [by rewrite IH|].
    rewrite IH. by destruct (split_on_cons sep a) as (cur & rest & ->).
Qed.

Lemma split_on_column (c : jsstring) : column c → split_on 44 c = [c].
Proof.
  induction 1 as [|x c Hx _ IH]; [done|].
  cbn [split_on]. apply N.eqb_neq in Hx as ->. by rewrite IH.
Qed.

Lemma split_on_columns (c : jsstring) (cols : list jsstring) (t : jsstring) :
  column c → Forall column cols →
  split_on 44 (join (js ",") (c :: cols) ++ js "," ++ t)
  = c :: cols ++ split_on 44 t.
Proof.
  intros Hc Hcols. revert c Hc.
  induction Hcols as [|c2 cols Hc2 _ IH]; intros c Hc.
  - cbn [join app]. change (js ",") with [44]. cbn [app].
    by rewrite split_on_app, split_on_column.
  - change (join (js ",") (c :: c2 :: cols))
      with (c ++ 44 :: join (js ",") (c2 :: cols)).
    rewrite <- app_assoc. cbn [app].
    rewrite split_on_app, split_on_column by done.
    cbn [app]. f_equal. by apply IH.
Qed.

Lemma trimStart_app_nonspace (a : jsstring) (c : N) (b : jsstring) :
  is_space c = false → trimStart (a ++ c :: b) = trimStart a ++ c :: b.
Proof.
  intros Hc. induction a as [|x a IH]; cbn [app trimStart].
  - by rewrite Hc.
  - by destruct (is_space x).
Qed.

Lemma trimEnd_app_nonspace (a : jsstring) (c : N) (b : jsstring) :
  is_space c = false → trimEnd (a ++ c :: b) = a ++ c :: trimEnd b.
Proof.
  intros Hc. unfold trimEnd.
  rewrite rev_app_distr. cbn [rev]. rewrite <- app_assoc. cbn [app].
  rewrite trimStart_app_nonspace by done.
  rewrite rev_app_distr. cbn [rev]. rewrite rev_involutive, <- app_assoc. done.
Qed.

Lemma trimStart_snoc (s : jsstring) (c : N) :
  trimStart (s ++ [c])
  = match trimStart s with
    | [] => if is_space c then [] else [c]
    | r => r ++ [c]
    end.
Proof.
  induction s as [|x s IH]; cbn [app trimStart]; [done|].
  by destruct (is_space x).
Qed.

Lemma trimEnd_cons (c : N) (t : jsstring) :
  trimEnd (c :: t)
  = match trimEnd t with
    | [] => if is_space c then [] else [c]
    | r => c :: r
    end.
Proof.
  unfold trimEnd. cbn [rev]. rewrite trimStart_snoc.
  destruct (trimStart (rev t)) as [|y r] eqn:E; cbn [rev].
  - by destruct (is_space c).
  - rewrite rev_app_distr. cbn [rev app].
    destruct (rev r ++ [y]) eqn:E2; [by destruct (rev r)|done].
Qed.

Lemma trimStart_idem (s : jsstring) : trimStart (trimStart s) = trimStart s.
Proof.
  induction s as [|c s IH]; [done|]. cbn [trimStart].
  destruct (is_space c) eqn:E; [done|]. cbn [trimStart]. by rewrite E.
Qed.

Lemma trimEnd_idem (s : jsstring) : trimEnd (trimEnd s) = trimEnd s.
Proof. unfold trimEnd. by rewrite rev_involutive, trimStart_idem. Qed.

Lemma trim_commute (t : jsstring) : trimStart (trimEnd t) = trimEnd (trimStart t).
Proof.
  induction t as [|c t IH]; [done|].
  cbn [trimStart]. rewrite trimEnd_cons.
  destruct (is_space c) eqn:E.
  - rewrite <- IH. destruct (trimEnd t); [done|]. cbn [trimStart]. by rewrite E.
  - rewrite trimEnd_cons, E. destruct (trimEnd t); cbn [trimStart]; by rewrite E.
Qed.

(** Trimming a text that has lost its trailing white space already. *)
Lemma trim_trimEnd (t : jsstring) : trim (trimEnd t) = trim t.
Proof. unfold trim. by rewrite trim_commute, trimEnd_idem. Qed.

Lemma style_named_own (m : gmap jsstring Style) (name : jsstring) (st : Style) :
  m !! name = Some st → style_named m name = Some st.
Proof. unfold style_named. by intros ->. Qed.

Lemma style_named_Default (m : gmap jsstring Style) :
  m !! js "Default" = None → style_named m (js "Default") = None.
Proof. unfold style_named. intros ->. by repeat case_match. Qed.

(** The line of nine columns and a text, in an [[Events]] section with the
    standard [Format:] line: the times are read from the second and the
    third column, the style from the fourth, and the text is all that
    follows the ninth comma. *)
Lemma columns_scan_line (sc : scan) (cols : list jsstring) (t : jsstring) :
  inEvents sc = true →
  formatFields sc = events_fields →
  length cols = 9%nat → Forall column cols →
  ∃ sc', scan_line sc (dialogue_of cols t) = Some sc'
         ∧ dialogues sc'
           = dialogues sc
             ++ [{| start := assTimeToVtt (trim (part cols 1));
                    finish := assTimeToVtt (trim (part cols 2));
                    text := assTextToVtt (trim t)
                              (style_named (styles sc) (trim (part cols 3))) |}].
Proof.
  intros He Hf Hlen Hcols.
  destruct cols as [|c0 [|c1 [|c2 [|c3 [|c4 [|c5 [|c6 [|c7 [|c8 [|c9 cols]]]]]]]]]];
    try done.
  set (cs := [c1; c2; c3; c4; c5; c6; c7; c8]).
  assert (Hcs : Forall column cs) by by inversion Hcols.
  assert (Hc0 : column c0) by by inversion Hcols.
  assert (Htrim : trim (dialogue_of (c0 :: cs) t)
                  = js "Dialogue: " ++ join (js ",") (c0 :: cs) ++ js "," ++ trimEnd t).
  { unfold trim, dialogue_of.
    change (trimStart (js "Dialogue: " ++ ?x)) with (js "Dialogue: " ++ x).
    rewrite !app_assoc. change (js ",") with [44] at 2 4.
    rewrite <- (app_assoc _ [44] t). cbn [app].
    rewrite trimEnd_app_nonspace by done. by rewrite <- !app_assoc. }
  unfold scan_line. rewrite Htrim, He.
  set (rest := join (js ",") (c0 :: cs) ++ js "," ++ trimEnd t).
  assert (styles_header (js "Dialogue: " ++ rest) = false) as -> by reflexivity.
  assert (startsWith_ci (js "Dialogue: " ++ rest) (js "Format:") = false) as ->
    by reflexivity.
  assert (startsWith_ci (js "Dialogue: " ++ rest) (js "Style:") = false) as ->
    by reflexivity.
  assert (events_header (js "Dialogue: " ++ rest) = false) as -> by reflexivity.
  assert (bracket (js "Dialogue: " ++ rest) = false) as -> by reflexivity.
  assert (startsWith_ci (js "Dialogue: " ++ rest) (js "Dialogue:") = true) as ->
    by reflexivity.
  rewrite !andb_false_r. cbn [andb].
  eexists. split; [done|].
  unfold dialogue_line. rewrite Hf.
  assert (Hbody : strip_label (js "Dialogue:") (js "Dialogue: " ++ rest)
                  = join (js ",") (trimStart c0 :: cs) ++ js "," ++ trimEnd t).
  { change (strip_label (js "Dialogue:") (js "Dialogue: " ++ rest))
      with (trimStart rest).
    subst rest cs.
    change (join (js ",") (c0 :: ?l)) with (c0 ++ 44 :: join (js ",") l).
    change (join (js ",") (trimStart c0 :: ?l))
      with (trimStart c0 ++ 44 :: join (js ",") l).
    rewrite <- !app_assoc. cbn [app].
    by rewrite trimStart_app_nonspace. }
  rewrite Hbody, split_on_columns by (done || by apply trimStart_Forall).
  destruct (split_on_cons 44 (trimEnd t)) as (cur & more & Hsplit).
  pose proof (join_split_on 44 (trimEnd t)) as Hjoin.
  rewrite Hsplit in *.
  assert (indexOf events_fields (js "start") = Some 1%nat) as -> by reflexivity.
  assert (indexOf events_fields (js "end") = Some 2%nat) as -> by reflexivity.
  assert (indexOf events_fields (js "text") = Some 9%nat) as -> by reflexivity.
  assert (indexOf events_fields (js "style") = Some 3%nat) as -> by reflexivity.
  subst cs. cbn [length app Nat.leb events_fields map drop part lookup
                 list_lookup default dialogues].
  change (js ",") with [44]. rewrite Hjoin, trim_trimEnd. done.
Qed.

Lemma scan_line_in_place (pre post : list jsstring) (sc sc' : scan)
    (line : jsstring) (d : Dialogue) :
  scan_through scan0 pre = Some sc →
  scan_line sc line = Some sc' →
  dialogues sc' = dialogues sc ++ [d] →
  ∃ later, dialogues (scan_lines scan0 (pre ++ line :: post))
           = dialogues sc ++ d :: later.
Proof.
  intros Hpre Hline Hd.
  rewrite (scan_through_app _ _ _ _ Hpre). cbn [scan_lines]. rewrite Hline.
  destruct (scan_lines_dialogues sc' post) as [later Hl].
  exists later. by rewrite Hl, Hd, <- app_assoc.
Qed.

(** The sample line is the line of its nine columns and its text. *)
Lemma sample_dialogue_columns :
  sample_dialogue
  = dialogue_of (map js ["0"; "0:00:01.00"; "0:00:03.00"; "Default"; "";
                         "0"; "0"; "0"; ""]%string)
                (js "{\b1}Hello{\b0} world").
Proof. reflexivity. Qed.

Lemma sample_scan_line (sc : scan) :
  inEvents sc = true →
  formatFields sc = events_fields →
  ∃ sc', scan_line sc sample_dialogue = Some sc'
         ∧ dialogues sc'
           = dialogues sc
             ++ [{| start := js "00:00:01.000"; finish := js "00:00:03.000";
                    text := assTextToVtt (js "{\b1}Hello{\b0} world")
                              (style_named (styles sc) (js "Default")) |}].
Proof.
  intros He Hf. rewrite sample_dialogue_columns.
  destruct (columns_scan_line sc
              (map js ["0"; "0:00:01.00"; "0:00:03.00"; "Default"; "";
                       "0"; "0"; "0"; ""]%string)
              (js "{\b1}Hello{\b0} world") He Hf eq_refl)
    as (sc' & Hline & Hd).
  { repeat constructor; by vm_compute. }
  exists sc'. split; [done|]. rewrite Hd. reflexivity.
Qed.

Lemma trim_between (a b : N) (x y mid : jsstring) :
  is_space a = false → is_space b = false →
  trim ((a :: x) ++ mid ++ y ++ [b]) = (a :: x) ++ mid ++ y ++ [b].
Proof.
  intros Ha Hb.
  replace ((a :: x) ++ mid ++ y ++ [b]) with (a :: (x ++ mid ++ y) ++ [b])
    by (cbn [app]; by rewrite <- !app_assoc).
  by apply trim_framed.
Qed.

(** The text of the sample under a style: the inline tags are converted
    and the markup of the style is put around. *)
Lemma sample_text_styled (st : Style) :
  assTextToVtt (js "{\b1}Hello{\b0} world") (Some st)
  = styled st (js "<b>Hello</b> world").
Proof.
  unfold assTextToVtt. cbv zeta.
  match goal with
  | |- context [replace_global (lit (js "\h") (js " ")) ?x] =>
      set (r := replace_global (lit (js "\h") (js " ")) x)
  end.
  assert (r = js "<b>Hello</b> world") as -> by (vm_compute; reflexivity).
  unfold styled.
  destruct (bold st), (italic st), (color st) as [col|].
  all: try (by vm_compute).
  - change (js "<c.color" ++ col ++ js ">" ++ ?m ++ js "</c>")
      with ((60 :: js "c.color") ++ col ++ (js ">" ++ m ++ js "</c") ++ [62]).
    by apply trim_between.
  - change (js "<c.color" ++ col ++ js ">" ++ ?m ++ js "</c>")
      with ((60 :: js "c.color") ++ col ++ (js ">" ++ m ++ js "</c") ++ [62]).
    by apply trim_between.
  - change (js "<c.color" ++ col ++ js ">" ++ ?m ++ js "</c>")
      with ((60 :: js "c.color") ++ col ++ (js ">" ++ m ++ js "</c") ++ [62]).
    by apply trim_between.
  - change (js "<c.color" ++ col ++ js ">" ++ ?m ++ js "</c>")
      with ((60 :: js "c.color") ++ col ++ (js ">" ++ m ++ js "</c") ++ [62]).
    by apply trim_between.
Qed.

(** Text without a tag or an escape goes through as it is, trimmed. *)
Lemma assTextToVtt_plain (t : jsstring) :
  plain_text t → assTextToVtt t None = trim t.
Proof.
  intros Ht. unfold assTextToVtt.
  repeat rewrite (replace_plain_id _ t) by
    (first [done | apply color_tag_anchored | apply any_tag_anchored
           | apply lit_anchored; first [by left | by right]]).
  done.
Qed.

(** C9 fails on a document that defines the style of the dialogue: its
    [[Events]] section has the [Format:] line with Start, End and Text and
    the sample dialogue line, and the text of the cue is wrapped in the
    colour of the style. *)
Lemma ass_sample_under_style :
  In events_format styled_lines
  ∧ In sample_dialogue styled_lines
  ∧ dialogues (scan_lines scan0 styled_lines)
    = [{| start := js "00:00:01.000"; finish := js "00:00:03.000";
          text := js "<c.color#FFFFFF><b>Hello</b> world</c>" |}]
  ∧ ¬ In sample_cue (dialogues (scan_lines scan0 styled_lines))
  ∧ assToVtt (join nl styled_lines)
    = js "WEBVTT" ++ nl ++ nl ++ js "00:00:01.000 --> 00:00:03.000" ++ nl
      ++ js "<c.color#FFFFFF><b>Hello</b> world</c>" ++ nl.
Proof.
  split; [by vm_compute; tauto|]. split; [by vm_compute; tauto|].
  assert (H : dialogues (scan_lines scan0 styled_lines)
              = [{| start := js "00:00:01.000"; finish := js "00:00:03.000";
                    text := js "<c.color#FFFFFF><b>Hello</b> world</c>" |}])
    by (vm_compute; reflexivity).
  split; [exact H|]. split.
  - rewrite H. intros [E|[]]. discriminate E.
  - vm_compute. reflexivity.
Qed.

(** C9 (amended).  Take a document whose lines, scanned from the start,
    have brought the scan into an [[Events]] section whose [Format:] line
    is the standard one (Layer, Start, End, Style, Name, MarginL, MarginR,
    MarginV, Effect, Text).  If no style named Default is defined, the
    sample dialogue line at this place yields the cue from 00:00:01.000 to
    00:00:03.000 with the text "<b>Hello</b> world", which stays in the
    output behind the cues found before.  If a style named Default is
    defined, the text is "<b>Hello</b> world" inside the markup of that
    style: bold, then italic, then the colour.  For every line of nine
    columns and a text, the cue has the times of the second and the third
    column and the style of the fourth, and its text is converted from all
    that follows the ninth comma, commas included, trimmed; a text
    without tags and escapes is the cue text as it is.  A time H:MM:SS.CC
    becomes 0H:MM:SS.CC0, and a pair of bold tags around plain text becomes
    the pair of markup tags. *)
Theorem ass_sample_cue (pre post : list jsstring) (sc : scan) :
  scan_through scan0 pre = Some sc →
  inEvents sc = true →
  formatFields sc = events_fields →
  (styles sc !! js "Default" = None →
   ∃ later, dialogues (scan_lines scan0 (pre ++ sample_dialogue :: post))
            = dialogues sc ++ sample_cue :: later)
  ∧ (∀ st, styles sc !! js "Default" = Some st →
     ∃ later, dialogues (scan_lines scan0 (pre ++ sample_dialogue :: post))
              = dialogues sc
                ++ {| start := js "00:00:01.000"; finish := js "00:00:03.000";
                      text := styled st (js "<b>Hello</b> world") |} :: later)
  ∧ (∀ cols t, length cols = 9%nat → Forall column cols →
     ∃ later, dialogues (scan_lines scan0 (pre ++ dialogue_of cols t :: post))
              = dialogues sc
                ++ {| start := assTimeToVtt (trim (part cols 1));
                      finish := assTimeToVtt (trim (part cols 2));
                      text := assTextToVtt (trim t)
                                (style_named (styles sc) (trim (part cols 3))) |}
                   :: later)
  ∧ (∀ t, plain_text t → assTextToVtt t None = trim t)
  ∧ assToVtt (join nl sample_events)
    = js "WEBVTT" ++ nl ++ nl ++ js "00:00:01.000 --> 00:00:03.000" ++ nl
      ++ js "<b>Hello</b> world" ++ nl
  ∧ (∀ h m1 m2 s1 s2 c1 c2,
       forallb is_digit [h; m1; m2; s1; s2; c1; c2] = true →
       assTimeToVtt [h; 58; m1; m2; 58; s1; s2; 46; c1; c2]
       = [48; h; 58; m1; m2; 58; s1; s2; 46; c1; c2; 48])
  ∧ (∀ t, plain_text t →
       assTextToVtt (js "{\b1}" ++ t ++ js "{\b0}") None
       = js "<b>" ++ t ++ js "</b>").
Proof.
  intros Hpre He Hf. split_and!.
  - intros Hs. destruct (sample_scan_line sc He Hf) as (sc' & Hline & Hd).
    rewrite style_named_Default in Hd by done.
    by apply (scan_line_in_place pre post sc sc' _ _ Hpre Hline).
  - intros st Hs. destruct (sample_scan_line sc He Hf) as (sc' & Hline & Hd).
    rewrite (style_named_own _ _ _ Hs), sample_text_styled in Hd.
    by apply (scan_line_in_place pre post sc sc' _ _ Hpre Hline).
  - intros cols t Hlen Hcols.
    destruct (columns_scan_line sc cols t He Hf Hlen Hcols) as (sc' & Hline & Hd).
    by apply (scan_line_in_place pre post sc sc' _ _ Hpre Hline).
  - apply assTextToVtt_plain.
  - vm_compute. reflexivity.
  - apply assTimeToVtt_centiseconds.
  - apply assTextToVtt_bold.
Qed.

(** The document of the sample, with a second dialogue line whose text has
    commas. *)
Lemma ass_sample_cue_witness :
  (∃ later,
     dialogues (scan_lines scan0 ([js "[Events]"; events_format]
                                  ++ sample_dialogue :: [sample_dialogue]))
     = [] ++ sample_cue :: later)
  ∧ ∃ later,
      dialogues (scan_lines scan0
                   ([js "[Events]"; events_format]
                    ++ js "Dialogue: 0,0:00:04.00,0:00:05.50,Default,,0,0,0,,Well, well, well"
                       :: []))
      = [] ++ {| start := js "00:00:04.000"; finish := js "00:00:05.500";
                 text := js "Well, well, well" |} :: later.
Proof.
  pose proof (ass_sample_cue [js "[Events]"; events_format]) as H.
  split.
  - apply (H [sample_dialogue]
             {| styles := ∅; inStyles := false; styleFormat := [];
                inEvents := true; formatFields := events_fields;
                dialogues := [] |}); reflexivity.
  - apply (proj1 (proj2 (proj2
             (H [] {| styles := ∅; inStyles := false; styleFormat := [];
                      inEvents := true; formatFields := events_fields;
                      dialogues := [] |} eq_refl eq_refl eq_refl)))
             (map js ["0"; "0:00:04.00"; "0:00:05.50"; "Default"; "";
                      "0"; "0"; "0"; ""]%string)
             (js "Well, well, well") eq_refl).
    repeat constructor; by vm_compute.
Defined.

(** ** The subtitles listing *)

Section ListingFacts.

Import Listing.

Variable encodeURIComponent : jsstring → option jsstring.
Variable r2CachedIds : gset jsstring.
Variable host configStr customImdbId : jsstring.
Variable isOmni hasReleaseTags : bool.

Local Abbreviation site_entry :=
  (Listing.site_entry encodeURIComponent r2CachedIds host configStr isOmni hasReleaseTags).
Local Abbreviation site_entries :=
  (Listing.site_entries encodeURIComponent r2CachedIds host configStr isOmni hasReleaseTags).
Local Abbreviation custom_entry :=
  (Listing.custom_entry encodeURIComponent host customImdbId isOmni).
Local Abbreviation add_customs :=
  (Listing.add_customs encodeURIComponent host customImdbId isOmni).

Lemma site_entry_id c x e c' :
  site_entry c x = Some (e, c') → e_id e = site_id x.
Proof.
  unfold Listing.site_entry, sub_url. intros H.
  destruct isOmni; destruct (encodeURIComponent (linkFile (sub x)));
    simplify_eq/=; done.
Qed.

Lemma site_entries_ids c l es c' :
  site_entries c l = Some (es, c') → map e_id es = map site_id l.
Proof.
  revert c es c'. induction l as [|x l IH]; intros c es c' H.
  - by injection H as <- <-.
  - cbn [Listing.site_entries] in H.
    destruct (site_entry c x) as [[e c1]|] eqn:E; [|done].
    cbn in H.
    destruct (site_entries c1 l) as [[es1 c2]|] eqn:E2; [|done].
    cbn in H. injection H as <- <-. cbn [map]. f_equal.
    + by eapply site_entry_id.
    + by eapply IH.
Qed.

Lemma site_entries_total c l :
  (∀ s, is_Some (encodeURIComponent s)) → is_Some (site_entries c l).
Proof.
  intros Henc. revert c. induction l as [|x l IH]; intros c; [by eexists|].
  cbn [Listing.site_entries].
  assert (is_Some (site_entry c x)) as [[e c1] ->].
  { unfold Listing.site_entry, sub_url.
    destruct (Henc (linkFile (sub x))) as [u ->]. destruct isOmni; by eexists. }
  cbn. destruct (IH c1) as [[es c2] ->]. by eexists.
Qed.

Lemma custom_entry_id c cs e c' :
  custom_entry c cs = Some (e, c') → e_id e = custom_id cs.
Proof.
  unfold Listing.custom_entry. intros H.
  destruct (encodeURIComponent (filename cs)); [|done]. cbn in H.
  repeat case_match; by simplify_eq/=.
Qed.

Lemma add_customs_shape c subtitles customSubs response :
  add_customs c subtitles customSubs = Some response →
  ∃ customs, response = customs ++ subtitles
             ∧ map e_id customs = rev (map custom_id customSubs).
Proof.
  revert c subtitles. induction customSubs as [|cs l IH]; intros c subtitles H.
  - injection H as <-. by exists [].
  - cbn [Listing.add_customs] in H.
    destruct (custom_entry c cs) as [[e c1]|] eqn:E; [|done].
    cbn in H. apply IH in H as (customs & -> & Hids).
    exists (customs ++ [e]). split; [by rewrite <- app_assoc|].
    rewrite map_app, Hids. cbn [map rev]. f_equal.
    f_equal. by eapply custom_entry_id.
Qed.

Lemma add_customs_total c subtitles customSubs :
  (∀ s, is_Some (encodeURIComponent s)) →
  is_Some (add_customs c subtitles customSubs).
Proof.
  intros Henc. revert c subtitles.
  induction customSubs as [|cs l IH]; intros c subtitles; [by eexists|].
  cbn [Listing.add_customs].
  assert (is_Some (custom_entry c cs)) as [[e c1] ->]; [|apply IH].
  unfold Listing.custom_entry.
  destruct (Henc (filename cs)) as [u ->]. cbn.
  repeat case_match; by eexists.
Qed.

Lemma from_site_custom customs customSubs :
  map e_id customs = rev (map custom_id customSubs) →
  List.filter from_site customs = [].
Proof.
  intros H.
  assert (Hall : Forall (λ i, startsWith i (js "titulky-") = false) (map e_id customs)).
  { rewrite H. apply Forall_rev, Forall_map, Forall_forall. by intros. }
  clear H. induction customs as [|e customs IH]; [done|].
  apply Forall_cons in Hall as [He Hall]. cbn [List.filter].
  unfold from_site at 1. rewrite He. by apply IH.
Qed.

Lemma insert_by_perm {A} (cmp : A → A → Z) (x : A) (l : list A) :
  insert_by cmp x l ≡ₚ x :: l.
Proof.
  induction l as [|y l IH]; cbn [insert_by]; [done|].
  destruct (cmp x y <=? 0)%Z; [done|]. by rewrite IH, Permutation_swap.
Qed.

Lemma sort_by_perm {A} (cmp : A → A → Z) (l : list A) : sort_by cmp l ≡ₚ l.
Proof.
  unfold sort_by. induction l as [|x l IH]; cbn [foldr]; [done|].
  by rewrite insert_by_perm, IH.
Qed.

Lemma filter_from_site_le (site : list Entry) (n : nat) :
  (length site ≤ n)%nat → (length (List.filter from_site site) ≤ n)%nat.
Proof.
  intros H. etrans; [|exact H]. clear. induction site as [|e site IH]; [done|].
  cbn [List.filter]. destruct (from_site e); cbn [length]; lia.
Qed.

(** C10.  The listing holds at most ten entries that come from the search
    of the site: they are the entries of the first ten of the ranked
    results, in their order, behind the entries of all custom subtitles
    (in the reverse of their order), which do not count against the ten.
    Only when a URI component cannot be encoded is the list empty
    instead. *)
Theorem listing_caps_site_results (scoredResults : list Scored)
    (customSubs : list CustomSub) :
  let response :=
    subtitles_response encodeURIComponent r2CachedIds host configStr
      customImdbId isOmni hasReleaseTags scoredResults customSubs in
  let listed := ranked r2CachedIds isOmni hasReleaseTags scoredResults in
  let shaped :=
    ∃ customs site,
      response = customs ++ site
      ∧ map e_id site = map site_id (take 10 listed)
      ∧ map e_id customs = rev (map custom_id customSubs)
      ∧ List.filter from_site customs = [] in
  listed ≡ₚ scoredResults
  ∧ (isOmni = false → listed = scoredResults)
  ∧ (length (List.filter from_site response) ≤ 10)%nat
  ∧ (response = [] ∨ shaped)
  ∧ ((∀ s, is_Some (encodeURIComponent s)) → shaped).
Proof.
  cbv zeta. unfold subtitles_response.
  set (listed := ranked r2CachedIds isOmni hasReleaseTags scoredResults).
  assert (Hshape : ∀ site c response,
            site_entries ∅ (take 10 listed) = Some (site, c) →
            add_customs c site customSubs = Some response →
            ∃ customs site,
              response = customs ++ site
              ∧ map e_id site = map site_id (take 10 listed)
              ∧ map e_id customs = rev (map custom_id customSubs)
              ∧ List.filter from_site customs = []).
  { intros site c response Hsite Hadd.
    apply add_customs_shape in Hadd as (customs & -> & Hc).
    exists customs, site. split; [done|]. split; [by eapply site_entries_ids|].
    split; [done|]. by eapply from_site_custom. }
  split; [|split; [|split; [|split]]].
  - unfold listed, ranked. destruct isOmni; [apply sort_by_perm | done].
  - unfold listed, ranked. by intros ->.
  - destruct (site_entries ∅ (take 10 listed)) as [[site c]|] eqn:Hsite; [|cbn; lia].
    cbn. destruct (add_customs c site customSubs) as [response|] eqn:Hadd; [|cbn; lia].
    cbn. destruct (Hshape _ _ _ eq_refl Hadd) as (customs & site' & -> & Hs & _ & Hc).
    rewrite List.filter_app, Hc. cbn [app]. apply filter_from_site_le.
    rewrite <- (length_map e_id), Hs, length_map, length_take. lia.
  - destruct (site_entries ∅ (take 10 listed)) as [[site c]|] eqn:Hsite; [|by left].
    cbn. destruct (add_customs c site customSubs) as [response|] eqn:Hadd; [|by left].
    right. by eapply (Hshape _ _ _ eq_refl).
  - intros Henc.
    destruct (site_entries_total ∅ (take 10 listed) Henc) as [[site c] Hsite].
    destruct (add_customs_total c site customSubs Henc) as [response Hadd].
    rewrite Hsite. cbn. rewrite Hadd. cbn. by eapply Hshape.
Qed.

End ListingFacts.

(** ** The site client: [search] *)

Section SearchFacts.

Import Client.

Context {Result W : Type}.
Implicit Types (env : site Result W) (titles : list jsstring) (w : W).

Lemma run_search_loop env titles w :
  run env (search_loop titles) w = cascade env (List.filter usable titles) w.
Proof.
  revert w. induction titles as [|title titles IH]; intros w; [done|].
  cbn [search_loop List.filter]. unfold usable at 1.
  destruct (Nat.ltb_spec (length title) 2) as [Hlt|Hge].
  - destruct (Nat.leb_spec 2 (length title)); [lia|]. apply IH.
  - destruct (Nat.leb_spec 2 (length title)); [|lia].
    cbn [run cascade]. destruct (on_search env title w) as [[results|] w']; [|done].
    destruct results as [|r results]; cbn [length Nat.ltb Nat.leb]; [|done].
    by rewrite IH.
Qed.

Lemma cascade_log env (candidates : list jsstring) w :
  List.filter is_login (cascade env candidates w).2 = [].
Proof.
  revert w. induction candidates as [|t l IH]; intros w; [done|].
  cbn [cascade]. destruct (on_search env t w) as [[[|r results]|] w']; [|done..].
  specialize (IH w'). destruct (cascade env l w') as [[r w''] log].
  by cbn in *.
Qed.

Lemma steady_search (answers : jsstring → list Result) titles :
  (run (steady_site answers) (search_loop titles) ()).1.1
  = Some (first_hit answers titles).
Proof.
  unfold first_hit. induction titles as [|title titles IH]; [done|].
  cbn [search_loop find]. unfold usable at 1.
  destruct (Nat.ltb_spec (length title) 2) as [Hlt|Hge].
  - destruct (Nat.leb_spec 2 (length title)); [lia|]. apply IH.
  - destruct (Nat.leb_spec 2 (length title)); [|lia].
    cbn [run steady_site on_search andb].
    destruct (0 <? length (answers title))%nat; [done|].
    destruct (run (steady_site answers) (search_loop titles) ()) as [[r u] log].
    by cbn in *.
Qed.

Lemma cascade_hit env (candidates : list jsstring) w results w' log :
  cascade env candidates w = (Some results, w', log) →
  results = []
  ∨ ∃ title wq, In title candidates
                ∧ on_search env title wq = (Some results, w')
                ∧ last log = Some (CSearch title).
Proof.
  revert w log. induction candidates as [|t l IH]; intros w log H; cbn in H.
  - left. congruence.
  - destruct (on_search env t w) as [[[|r rs]|] wq] eqn:E.
    + destruct (cascade env l wq) as [[r1 w1] log1] eqn:E1.
      injection H as -> -> <-.
      destruct (IH _ _ E1) as [->|(title & wt & Hin & Hq & Hlast)]; [by left|].
      right. exists title, wt. split; [by right|]. split; [done|].
      destruct log1; [done|]. by rewrite last_cons, Hlast.
    + injection H as <- <- <-. right. exists t, w. split; [by left|]. done.
    + done.
Qed.

(** C4.  [search] logs in once, at the start, and then queries the
    candidates of at least two code units in their order until an answer is
    not empty: that answer alone is the result, and the result is empty
    when every answer is.  Against a site whose answers depend on the title
    alone, the result is the answer to the first usable candidate with a
    non-empty answer. *)
Theorem search_cascades env titles w :
  run env (search titles) w = search_spec env titles w
  ∧ length (List.filter is_login (run env (search titles) w).2) = 1%nat
  ∧ head (run env (search titles) w).2 = Some CLogin
  ∧ (∀ results w' log,
       run env (search titles) w = (Some results, w', log) →
       results = []
       ∨ ∃ title wq, In title titles ∧ (2 ≤ length title)%nat
                     ∧ on_search env title wq = (Some results, w')
                     ∧ last log = Some (CSearch title))
  ∧ (∀ answers : jsstring → list Result,
       (run (steady_site answers) (search titles) ()).1.1
       = Some (first_hit answers titles)).
Proof.
  assert (Hspec : run env (search titles) w = search_spec env titles w).
  { unfold search, search_spec. cbn [run].
    destruct (on_login env w) as [[ok|] w']; [|done].
    by rewrite run_search_loop. }
  split; [done|]. rewrite Hspec. split; [|split; [|split]].
  - unfold search_spec. destruct (on_login env w) as [[ok|] w']; [|done].
    pose proof (cascade_log env (List.filter usable titles) w') as Hlog.
    destruct (cascade env (List.filter usable titles) w') as [[r w''] log].
    cbn in *. by rewrite Hlog.
  - unfold search_spec. destruct (on_login env w) as [[ok|] w']; [|done].
    by destruct (cascade env (List.filter usable titles) w') as [[r w''] log].
  - intros results w' log. unfold search_spec.
    destruct (on_login env w) as [[ok|] w1]; [|done].
    destruct (cascade env (List.filter usable titles) w1) as [[r w2] log1] eqn:E.
    intros [= -> -> <-].
    destruct (cascade_hit _ _ _ _ _ _ E) as [->|(title & wq & Hin & Hq & Hlast)];
      [by left|].
    right. exists title, wq. apply filter_In in Hin as [Hin Hu].
    split; [done|]. split; [by apply Nat.leb_le in Hu|]. split; [done|].
    destruct log1; [done|]. by rewrite last_cons, Hlast.
  - intros answers. unfold search. cbn [run steady_site on_login].
    pose proof (steady_search answers titles) as H.
    destruct (run (steady_site answers) (search_loop titles) ()) as [[r u] log].
    done.
Qed.

End SearchFacts.

Lemma search_cascades_witness :
  let answers (t : jsstring) := if eqb t (js "Yy") then [1%nat; 2%nat] else [] in
  [1%nat; 2%nat] = []
  ∨ ∃ title wq,
      In title [js "X"; js "Xx"; js "Yy"; js "Zz"] ∧ (2 ≤ length title)%nat
      ∧ Client.on_search (Client.steady_site answers) title wq
        = (Some [1%nat; 2%nat], ())
      ∧ last [Client.CLogin; Client.CSearch (js "Xx"); Client.CSearch (js "Yy")]
        = Some (Client.CSearch title).
Proof.
  cbv zeta.
  apply (proj1 (proj2 (proj2 (proj2
           (search_cascades
              (Client.steady_site
                 (λ t, if eqb t (js "Yy") then [1%nat; 2%nat] else []))
              [js "X"; js "Xx"; js "Yy"; js "Zz"] ())))) [1%nat; 2%nat] ()).
  reflexivity.
Defined.

(** Two candidates of which the first finds nothing: the result is what
    the second finds, after one login and two queries. *)
Example search_second_candidate :
  let answers (t : jsstring) := if eqb t (js "Yy") then [1%nat; 2%nat] else [] in
  Client.run (Client.steady_site answers) (Client.search [js "X"; js "Xx"; js "Yy"; js "Zz"]) ()
  = (Some [1%nat; 2%nat], (),
     [Client.CLogin; Client.CSearch (js "Xx"); Client.CSearch (js "Yy")]).
Proof. reflexivity. Qed.

(** ** The site client: [login] *)

Section LoginFacts.

Import Client.

Lemma starters_In (l : list (nat * bool)) (p : nat) :
  In (p, true) l ↔ In (p, true) (starters l).
Proof.
  unfold starters. rewrite filter_In. cbn. by intuition.
Qed.

Lemma starters_none (l : list (nat * bool)) :
  (∀ p, ¬ In (p, true) l) → starters l = [].
Proof.
  intros H. unfold starters. induction l as [|[p b] l IH]; [done|].
  cbn [List.filter snd]. destruct b.
  - exfalso. apply (H p). by left.
  - apply IH. intros q Hq. apply (H q). by right.
Qed.

Lemma starters_delete (l : list (nat * bool)) (i p : nat) (b : bool) :
  l !! i = Some (p, b) →
  starters l = starters (take i l) ++ (if b then [(p, b)] else [])
               ++ starters (drop (S i) l)
  ∧ starters (delete i l) = starters (take i l) ++ starters (drop (S i) l).
Proof.
  intros Hi. unfold starters. rewrite delete_take_drop.
  rewrite <- (take_drop_middle l i (p, b) Hi) at 1.
  rewrite !List.filter_app. cbn [List.filter snd]. by destruct b.
Qed.

Lemma delete_In {A} (l : list A) (i : nat) (x : A) :
  In x (delete i l) → In x l.
Proof.
  intros H%list_elem_of_In. apply list_elem_of_In.
  eapply elem_of_sublist; [exact H | apply sublist_delete].
Qed.

Lemma In_delete {A} (l : list A) (i : nat) (x y : A) :
  l !! i = Some y → x ≠ y → In x l → In x (delete i l).
Proof.
  intros Hi Hne Hx. rewrite delete_take_drop.
  rewrite <- (take_drop_middle l i y Hi) in Hx.
  apply in_app_iff in Hx as [Hx|[Hx|Hx]]; apply in_app_iff; by auto.
Qed.

Lemma session_inv_init (user : jsstring) : session_inv (new_world user).
Proof.
  split; cbn.
  - intros q [Hq _]. cbn in Hq. lia.
  - by intros p [].
  - lia.
  - done.
  - intros p [o Hp]. by rewrite lookup_empty in Hp.
Qed.

Lemma session_inv_step (e : event) (w w' : world) :
  session_inv w → step e w = Some w' → session_inv w'.
Proof.
  intros [Hflight Hstart Hsingle Hprom Hset] Hstep.
  destruct e as [now|p a now|i]; cbn in Hstep.
  - (* a call of login() *)
    unfold login in Hstep. destruct (fresh now (sess w)).
    { injection Hstep as <-. by split. }
    destruct (loginPromise (sess w)) as [p|] eqn:Hp.
    { injection Hstep as <-. split; cbn; rewrite ?Hp.
      - done.
      - intros q [Hq|[[=]|[]]]%in_app_iff. by apply Hstart.
      - unfold starters. rewrite List.filter_app. cbn. by rewrite app_nil_r.
      - intros q [= <-]. apply in_app_iff. left. by apply Hprom.
      - done. }
    injection Hstep as <-.
    assert (Hnone : starters (waiting w) = []).
    { apply starters_none. intros q Hq. apply Hstart in Hq. congruence. }
    split; cbn.
    + intros q [Hlt Hq]. unfold doLogin_start in *.
      destruct (decide (q = attempts (sess w))) as [->|Hne]; [done|].
      exfalso. assert (in_flight (sess w) q) as Hin.
      { destruct (username (sess w)); cbn in *.
        - rewrite lookup_insert_ne in Hq by done. split; [lia | done].
        - split; [lia | done]. }
      apply Hflight in Hin. congruence.
    + intros q [Hq|[[= ->]|[]]]%in_app_iff; [|done].
      apply Hstart in Hq. congruence.
    + unfold starters in *. rewrite List.filter_app, Hnone. cbn. lia.
    + intros q [= <-]. apply in_app_iff. right. by left.
    + intros q Hq. unfold doLogin_start in Hq |- *.
      destruct (username (sess w)); cbn in *.
      * destruct (decide (q = attempts (sess w))) as [->|Hne]; [lia|].
        rewrite lookup_insert_ne in Hq by done. apply Hset in Hq. lia.
      * apply Hset in Hq. lia.
  - (* the answer of the site to a login request *)
    destruct (bool_decide (p < attempts (sess w))%nat) eqn:Hlt; [|done].
    destruct (bool_decide (settled (sess w) !! p = None)) eqn:Hpend; [|done].
    injection Hstep as <-. apply bool_decide_eq_true in Hlt, Hpend.
    assert (loginPromise (doLogin_finish p a now (sess w)) = loginPromise (sess w))
      as Hsame by by destruct a.
    split; cbn; [|by destruct a|done|by rewrite Hsame|].
    + intros q [Hq1 Hq2]. rewrite Hsame.
      apply Hflight. split; [by destruct a|].
      destruct (decide (q = p)) as [->|Hne].
      * destruct a; cbn in Hq2; by rewrite lookup_insert_eq in Hq2.
      * destruct a; cbn in Hq2; by rewrite lookup_insert_ne in Hq2.
    + intros q Hq.
      assert (attempts (doLogin_finish p a now (sess w)) = attempts (sess w))
        as -> by by destruct a.
      destruct (decide (q = p)) as [->|Hne]; [done|].
      apply Hset. destruct a; cbn in Hq; by rewrite lookup_insert_ne in Hq.
  - (* a waiting caller goes on *)
    destruct (waiting w !! i) as [[p starter]|] eqn:Hi; [|done].
    destruct (settled (sess w) !! p) as [o|] eqn:Hsettled; [|done].
    injection Hstep as <-.
    destruct (starters_delete _ _ _ _ Hi) as [Hall Hdel].
    destruct starter; cbn.
    + assert (Hp : loginPromise (sess w) = Some p).
      { apply Hstart, list_elem_of_In. by eapply list_elem_of_lookup_2. }
      assert (Hrest : starters (delete i (waiting w)) = []).
      { rewrite Hall in Hsingle. rewrite Hdel.
        rewrite !length_app in Hsingle. cbn in Hsingle.
        destruct (starters (take i (waiting w))), (starters (drop (S i) (waiting w)));
          cbn in *; [done | lia..]. }
      split; cbn [sess waiting].
      * intros q Hq. exfalso. apply Hflight in Hq as Hq'.
        assert (q = p) as -> by congruence.
        destruct Hq as [_ Hq]. cbn in Hq. congruence.
      * intros q Hq%starters_In. by rewrite Hrest in Hq.
      * rewrite Hrest. cbn. lia.
      * done.
      * done.
    + split; cbn [sess waiting login_resume].
      * done.
      * intros q Hq. by apply Hstart, (delete_In _ i).
      * rewrite Hdel. rewrite Hall in Hsingle.
        rewrite !length_app in *. cbn in *. lia.
      * intros q Hq. apply (In_delete _ _ _ _ Hi); [done | by apply Hprom].
      * done.
Qed.

Lemma session_inv_steps (es : list event) (w w' : world) :
  session_inv w → steps es w = Some w' → session_inv w'.
Proof.
  revert w. induction es as [|e es IH]; intros w Hinv H; cbn in H.
  - by injection H as <-.
  - destruct (step e w) as [w1|] eqn:E; [|done]. cbn in H.
    eapply IH; [|exact H]. by eapply session_inv_step.
Qed.

End LoginFacts.



(** ** Serving a subtitle *)

Section ServeFacts.

Import Serve.

Variable encodeURIComponent decodeURIComponent : jsstring → option jsstring.
Variable utf16le_decode win1250_decode : list byte → jsstring.

Local Abbreviation handle :=
  (Serve.handle encodeURIComponent decodeURIComponent utf16le_decode win1250_decode).
Local Abbreviation step :=
  (Serve.step encodeURIComponent decodeURIComponent utf16le_decode win1250_decode).
Local Abbreviation run :=
  (Serve.run encodeURIComponent decodeURIComponent utf16le_decode win1250_decode).

Lemma release_unlocks (r : Request) (p : nat) (st : state) :
  downloadLocks (release r p st) !! subId r = None ∧ p ∈ resolved (release r p st).
Proof.
  unfold release. cbn. split; [apply lookup_delete_eq | set_solver].
Qed.

Lemma step_handle (now : Z) (i : nat) (e : event) (st : state) r at_ at' st' :
  handlers st !! i = Some (r, at_) →
  handle now i r at_ e st = Some (at', st') →
  step now i e st = Some (set_handler i r at' st').
Proof. intros Hi Hh. unfold Serve.step. rewrite Hi. cbn. by rewrite Hh. Qed.

Lemma set_handler_lookup (i : nat) (r : Request) (at_ : pc) (st : state) :
  (i < length (handlers st))%nat →
  handlers (set_handler i r at_ st) !! i = Some (r, at_).
Proof. intros H. cbn. by apply list_lookup_insert_eq. Qed.

(** C3.  When the download answers [null] or an empty list of files, the
    handler releases the lock and answers 200 with the fixed cue that tells
    of the limit: a WEBVTT cue under Omni, an SRT cue otherwise. *)
Theorem limit_cue_served (now : Z) (i : nat) (r : Request) (cfg : Config)
    (p : nat) (d : download_answer) (st : state) :
  handlers st !! i = Some (r, AwaitDownload p) →
  config r = Some cfg →
  d = NoFiles ∨ d = Files [] →
  ∃ st',
    step now i (DownloadAnswer d) st = Some st'
    ∧ handlers st' !! i = Some (r, Done (limit_response (omni cfg)))
    ∧ status (limit_response (omni cfg)) = 200
    ∧ body (limit_response (omni cfg)) = limitMsg (omni cfg)
    ∧ headers (limit_response (omni cfg))
      = [(js "Content-Type", if omni cfg then vtt_type else plain_type)]
    ∧ downloadLocks st' !! subId r = None
    ∧ p ∈ resolved st'
    ∧ limitMsg true
      = js "WEBVTT" ++ nl ++ nl ++ js "1" ++ nl
        ++ js "00:00:01.000 --> 00:00:30.000" ++ nl ++ limit_text ++ nl
    ∧ limitMsg false
      = js "1" ++ nl ++ js "00:00:01,000 --> 00:00:30,000" ++ nl
        ++ limit_text ++ nl
    ∧ srtToVtt (limitMsg false) = limitMsg true.
Proof.
  intros Hi Hcfg Hd.
  assert (Hh : handle now i r (AwaitDownload p) (DownloadAnswer d) st
               = Some (Done (limit_response (omni cfg)), release r p st)).
  { unfold Serve.handle. rewrite Hcfg. by destruct Hd as [-> | ->]. }
  eexists. split; [by eapply step_handle|].
  split. { apply set_handler_lookup. cbn. by eapply lookup_lt_Some. }
  do 3 (split; [done|]).
  split; [apply release_unlocks|]. split; [apply release_unlocks|].
  do 2 (split; [done|]). by vm_compute.
Qed.

(** *** The invariant of two handlers *)

Lemma calls_snoc (i j : nat) (l : list (nat * jsstring * jsstring)) (a b : jsstring) :
  length (List.filter (λ x : nat * jsstring * jsstring, (x.1.1 =? j)%nat)
            (l ++ [(i, a, b)]))
  = (length (List.filter (λ x : nat * jsstring * jsstring, (x.1.1 =? j)%nat) l)
     + (if decide (i = j) then 1 else 0))%nat.
Proof.
  rewrite List.filter_app, length_app. cbn.
  destruct (decide (i = j)) as [->|Hne].
  - by rewrite Nat.eqb_refl.
  - by apply Nat.eqb_neq in Hne as ->.
Qed.

Lemma pair_inv_sym st k i j me ot :
  pair_inv st k i j me ot → pair_inv st k j i ot me.
Proof.
  intros [H1 H2 H3 H4 H5 H6 H7 H8]. split; try done.
  - unfold lock_ok in *. by destruct (lock_holder me), (lock_holder ot).
  - lia.
  - auto.
Qed.

Lemma pair_inv_set_handler st k i j me ot n r at_ :
  pair_inv st k i j me ot → pair_inv (set_handler n r at_ st) k i j me ot.
Proof. by intros []. Qed.

Lemma handle_handlers now i r me e st me' st1 :
  handle now i r me e st = Some (me', st1) → handlers st1 = handlers st.
Proof.
  unfold Serve.handle, Serve.catch, acquire, release. intros Hh.
  destruct (config r); destruct me; destruct e; try discriminate Hh.
  all: by repeat case_match; simplify_eq.
Qed.

(** One stretch of a handler keeps the invariant, whichever of the two
    it is. *)
Lemma handle_inv now i j r k me ot e st me' st1 :
  i ≠ j → subId r = k →
  pair_inv st k i j me ot →
  handle now i r me e st = Some (me', st1) →
  pair_inv st1 k i j me' ot.
Proof.
  intros Hij Hk [Hlock Hwm Hwo Hres Hcm Hco Hlen Hcache] Hh.
  unfold Serve.handle, Serve.catch, acquire in Hh.
  destruct (config r) as [cfg|].
  2:{ destruct me, e; try discriminate Hh. injection Hh as <- <-.
      split; try done. all: destruct ot; try done.
      all: cbn in *; try lia. all: destruct Hwo; done. }
  destruct me; destruct e as [|[[c f]|]| |[]|[[|file files]| |]];
    try discriminate Hh.
  all: repeat case_match; simplify_eq.
  all: unfold fetched, wait_ok, lock_ok, calls in *;
    cbn [lock_holder finished] in *.
  all: destruct ot; cbn [lock_holder finished] in *; try done.
  all: try (destruct Hwo as [Hwo|Hwo]; discriminate Hwo).
  all: try specialize (Hcache eq_refl eq_refl).
  all: destruct_and?.
  all: repeat match goal with
              | H : bool_decide _ = true |- _ => apply bool_decide_eq_true in H
              end.
  all: split;
    unfold fetched, wait_ok, lock_ok, calls, Serve.catch, release, acquire,
      resolveLock, set_locks, set_cache;
    cbn [lock_holder finished fetches downloadLocks resolved promises
         subtitleCache fst snd];
    rewrite ?lookup_insert_eq, ?lookup_delete_eq, ?calls_snoc;
    repeat case_decide; try done; try lia; try congruence;
    try (left; congruence).
  all: try (by (split; [done | split; [by intros ?%Hres; lia | lia]])).
  all: try (by (intros q Hq%Hres; lia)).
  all: try (exfalso; congruence).
  all: try (by (exfalso; destruct Hwm as [[= ->]|[=]])).
  all: try (rewrite length_app; cbn; lia).
  all: try (by (intros _ _; rewrite Hcache; apply delete_empty)).
  all: by (intros q [->%elem_of_singleton|?]%elem_of_union;
           [lia | by apply Hres]).
Qed.

Lemma two_inv_init (a b : Request) : two_inv a b (init [a; b]).
Proof.
  exists Start, Start. split; [done|]. by split.
Qed.

Lemma two_inv_step (a b : Request) now i e st st' :
  subId a = subId b →
  two_inv a b st → step now i e st = Some st' → two_inv a b st'.
Proof.
  intros Hab (pa & pb & Hh & Hinv) Hstep. unfold Serve.step in Hstep.
  rewrite Hh in Hstep. destruct i as [|[|i]].
  3:{ by destruct i. }
  all: cbn in Hstep.
  - destruct (handle now 0 a pa e st) as [[pa' st1]|] eqn:E; [|done].
    injection Hstep as <-. exists pa', pb. split.
    + cbn. rewrite (handle_handlers _ _ _ _ _ _ _ _ E), Hh. reflexivity.
    + apply pair_inv_set_handler.
      by apply (handle_inv now 0 1 a (subId a) pa pb e st).
  - destruct (handle now 1 b pb e st) as [[pb' st1]|] eqn:E; [|done].
    injection Hstep as <-. exists pa, pb'. split.
    + cbn. rewrite (handle_handlers _ _ _ _ _ _ _ _ E), Hh. reflexivity.
    + apply pair_inv_set_handler, pair_inv_sym.
      apply (handle_inv now 1 0 b (subId a) pb pa e st); [done..| |done].
      by apply pair_inv_sym.
Qed.

Lemma two_inv_run (a b : Request) turns st st' :
  subId a = subId b →
  two_inv a b st → run turns st = Some st' → two_inv a b st'.
Proof.
  intros Hab. revert st. induction turns as [|[[now i] e] turns IH];
    intros st Hinv Hrun; cbn in Hrun.
  - by injection Hrun as <-.
  - destruct (step now i e st) as [st1|] eqn:E; [|done]. cbn in Hrun.
    eapply IH; [|exact Hrun]. by eapply two_inv_step.
Qed.

End ServeFacts.

Section SingleFlight.

Import Serve.

Variable encodeURIComponent decodeURIComponent : jsstring → option jsstring.
Variable utf16le_decode win1250_decode : list byte → jsstring.

Local Abbreviation step :=
  (Serve.step encodeURIComponent decodeURIComponent utf16le_decode win1250_decode).
Local Abbreviation run :=
  (Serve.run encodeURIComponent decodeURIComponent utf16le_decode win1250_decode).
Local Abbreviation served := (Serve.served encodeURIComponent).

(** A handler that waits for a lock that is not resolved stays where it
    is. *)
Lemma waiter_blocked now j rj cj p e st :
  handlers st !! j = Some (rj, AwaitLock p) →
  config rj = Some cj →
  p ∉ resolved st →
  step now j e st = None.
Proof.
  intros Hj Hc Hp. unfold Serve.step. rewrite Hj. cbn.
  unfold Serve.handle. rewrite Hc.
  destruct e; try done. by rewrite bool_decide_eq_false_2.
Qed.

(** [sendSub] answers 200 with the text, as WebVTT under Omni, or
    throws. *)
Lemma sendSub_ok isOmni content filename resp :
  sendSub encodeURIComponent isOmni content filename = inl resp →
  status resp = 200 ∧ body resp = (if isOmni then srtToVtt content else content).
Proof.
  unfold sendSub. destruct isOmni; repeat case_match; by intros [= <-].
Qed.

(** In the plain context it throws exactly when the file name makes a
    header value that [res.setHeader] rejects. *)
Lemma sendSub_plain content filename :
  (∃ resp, sendSub encodeURIComponent false content filename = inl resp)
  ↔ header_ok (js "attachment; filename=" ++ [34] ++ filename ++ [34]) = true.
Proof.
  unfold sendSub.
  destruct (header_ok (js "attachment; filename=" ++ [34] ++ filename ++ [34]));
    split; try done.
  - by eexists.
  - by intros [resp [=]].
Qed.

(** Under Omni it throws exactly when the name of the WebVTT file cannot
    be encoded, or is encoded to a value that [res.setHeader] rejects. *)
Lemma sendSub_omni content filename :
  (∃ resp, sendSub encodeURIComponent true content filename = inl resp)
  ↔ ∃ enc, encodeURIComponent (vtt_name filename) = Some enc
           ∧ header_ok (js "inline; filename=" ++ [34] ++ enc ++ [34]) = true.
Proof.
  unfold sendSub.
  destruct (encodeURIComponent (vtt_name filename)) as [enc|].
  - destruct (header_ok (js "inline; filename=" ++ [34] ++ enc ++ [34])) eqn:E;
      split.
    + intros _. by exists enc.
    + by eexists.
    + by intros [resp [=]].
    + intros (e & [= <-] & He). congruence.
  - split; [by intros [resp [=]] | by intros (e & [=] & _)].
Qed.

(** The download of the holder of the lock yields a file: the holder
    caches the text, lets the lock go and answers. *)
Lemma holder_serves now i ri ci p file files st :
  handlers st !! i = Some (ri, AwaitDownload p) →
  config ri = Some ci →
  let content := ensureUtf8 utf16le_decode win1250_decode (data file) in
  ∃ st1,
    step now i (DownloadAnswer (Files (file :: files))) st = Some st1
    ∧ handlers st1 = <[i := (ri, served (omni ci) content (name file))]> (handlers st)
    ∧ subtitleCache st1 !! cacheKey ri
      = Some {| Serve.content := content; filename := name file; time := now |}
    ∧ p ∈ resolved st1
    ∧ fetches st1 = fetches st.
Proof.
  intros Hi Hci content.
  unfold Serve.step. rewrite Hi. cbn. unfold Serve.handle. rewrite Hci.
  fold content. unfold Serve.served.
  destruct (sendSub encodeURIComponent (omni ci) content (name file)) as [ra|hs];
    cbn; eexists; (split; [reflexivity|]); cbn;
    (split; [done|]); (split; [by rewrite lookup_insert_eq|]);
    (split; [set_solver | done]).
Qed.

(** The lock a handler waited for is resolved and the cache holds the
    text: the handler answers it without a download. *)
Lemma waiter_serves now j rj cj p cached st :
  handlers st !! j = Some (rj, AwaitLock p) →
  config rj = Some cj →
  p ∈ resolved st →
  subtitleCache st !! cacheKey rj = Some cached →
  ∃ st2,
    step now j LockReleased st = Some st2
    ∧ handlers st2
      = <[j := (rj, served (omni cj) (content cached) (filename cached))]> (handlers st)
    ∧ fetches st2 = fetches st.
Proof.
  intros Hj Hcj Hp Hc.
  unfold Serve.step. rewrite Hj. cbn. unfold Serve.handle. rewrite Hcj.
  rewrite bool_decide_eq_true_2, Hc by done. unfold Serve.served.
  destruct (sendSub encodeURIComponent (omni cj) (content cached) (filename cached));
    cbn; eexists; (split; [reflexivity|]); by cbn.
Qed.

(** Both in a row. *)
Lemma holder_then_waiter now1 now2 i j ri rj ci cj p file files st :
  i ≠ j →
  handlers st !! i = Some (ri, AwaitDownload p) →
  handlers st !! j = Some (rj, AwaitLock p) →
  config ri = Some ci → config rj = Some cj →
  cacheKey ri = cacheKey rj →
  let content := ensureUtf8 utf16le_decode win1250_decode (data file) in
  ∃ st1 st2,
    step now1 i (DownloadAnswer (Files (file :: files))) st = Some st1
    ∧ step now2 j LockReleased st1 = Some st2
    ∧ fetches st2 = fetches st
    ∧ pc_of st2 i = Some (served (omni ci) content (name file))
    ∧ pc_of st2 j = Some (served (omni cj) content (name file)).
Proof.
  intros Hij Hi Hj Hci Hcj Hkey content.
  assert (Hli : (i < length (handlers st))%nat) by by eapply lookup_lt_Some.
  assert (Hlj : (j < length (handlers st))%nat) by by eapply lookup_lt_Some.
  destruct (holder_serves now1 i ri ci p file files st Hi Hci)
    as (st1 & Hs1 & Hh1 & Hc1 & Hp1 & Hf1).
  fold content in Hh1, Hc1. rewrite Hkey in Hc1.
  assert (Hj1 : handlers st1 !! j = Some (rj, AwaitLock p)).
  { by rewrite Hh1, list_lookup_insert_ne. }
  destruct (waiter_serves now2 j rj cj p _ st1 Hj1 Hcj Hp1 Hc1)
    as (st2 & Hs2 & Hh2 & Hf2).
  exists st1, st2. split; [done|]. split; [done|]. split; [congruence|].
  unfold pc_of. rewrite Hh2, Hh1. split.
  - rewrite list_lookup_insert_ne by done. by rewrite list_lookup_insert_eq.
  - by rewrite list_lookup_insert_eq by by rewrite length_insert.
Qed.

(** The download of the holder of the lock yields no file and nothing is
    cached: the handler that waited takes the lock and downloads for
    itself. *)
Lemma holder_limited_then_waiter now1 now2 now3 i j ri rj ci cj p d decoded st :
  i ≠ j →
  handlers st !! i = Some (ri, AwaitDownload p) →
  handlers st !! j = Some (rj, AwaitLock p) →
  config ri = Some ci → config rj = Some cj →
  subtitleCache st = ∅ →
  d = NoFiles ∨ d = Files [] →
  decodeURIComponent (linkFile rj) = Some decoded →
  ∃ st1 st2 st3,
    step now1 i (DownloadAnswer d) st = Some st1
    ∧ step now2 j LockReleased st1 = Some st2
    ∧ step now3 j (ClientAnswer GotClient) st2 = Some st3
    ∧ pc_of st3 i = Some (Done (limit_response (omni ci)))
    ∧ pc_of st3 j = Some (AwaitDownload (promises st))
    ∧ fetches st3 = fetches st ++ [(j, subId rj, decoded)].
Proof.
  intros Hij Hi Hj Hci Hcj Hcache Hd Hdec.
  assert (Hli : (i < length (handlers st))%nat) by by eapply lookup_lt_Some.
  assert (Hlj : (j < length (handlers st))%nat) by by eapply lookup_lt_Some.
  assert (H1 : step now1 i (DownloadAnswer d) st
               = Some (set_handler i ri (Done (limit_response (omni ci)))
                         (release ri p st))).
  { unfold Serve.step. rewrite Hi. cbn. unfold Serve.handle. rewrite Hci.
    by destruct Hd as [-> | ->]. }
  set (st1 := set_handler i ri (Done (limit_response (omni ci))) (release ri p st)) in *.
  assert (Hj1 : handlers st1 !! j = Some (rj, AwaitLock p)).
  { cbn. by rewrite list_lookup_insert_ne. }
  assert (H2 : step now2 j LockReleased st1
               = Some (set_handler j rj (AwaitClient (promises st)) (acquire rj st1).2)).
  { unfold Serve.step. rewrite Hj1. cbn. unfold Serve.handle. rewrite Hcj.
    rewrite bool_decide_eq_true_2 by (cbn; set_solver).
    cbn [subtitleCache st1 set_handler release resolveLock set_locks].
    assert (subtitleCache st !! cacheKey rj = None) as ->
      by by rewrite Hcache, lookup_empty.
    reflexivity. }
  set (st2 := set_handler j rj (AwaitClient (promises st)) (acquire rj st1).2) in *.
  assert (Hj2 : handlers st2 !! j = Some (rj, AwaitClient (promises st))).
  { cbn. by rewrite list_lookup_insert_eq by by rewrite length_insert. }
  exists st1, st2. eexists. split; [done|]. split; [done|]. split.
  { unfold Serve.step. rewrite Hj2. cbn. unfold Serve.handle.
    rewrite Hcj, Hdec. reflexivity. }
  unfold pc_of. cbn. split; [|split; [|done]].
  - rewrite !list_lookup_insert_ne by done. by rewrite list_lookup_insert_eq.
  - by rewrite list_lookup_insert_eq by by rewrite !length_insert.
Qed.


End SingleFlight.



(** The same two requests when the archive holds a file whose name has a
    code unit above U+00FF: [sendSub] throws in both handlers, inside the
    [try] block, and both are answered 500 after the one download. *)
Example plain_name_throws :
  ∃ st r0 r1,
    Serve.sample_run
      (Serve.waiting_turns
       ++ [Serve.turn 5 0 (Serve.DownloadAnswer
                             (Serve.Files [{| Serve.name := js_utf8 "čaj.srt";
                                              Serve.data := [x48; x69] |}]));
           Serve.turn 6 1 Serve.LockReleased]) = Some st
    ∧ length (Serve.fetches st) = 1%nat
    ∧ Serve.pc_of st 0 = Some (Serve.Done r0)
    ∧ Serve.pc_of st 1 = Some (Serve.Done r1)
    ∧ Serve.status r0 = 500 ∧ Serve.body r0 = js "Download failed"
    ∧ Serve.status r1 = 500 ∧ Serve.body r1 = js "Download failed".
Proof.
  eexists _, _, _. split; [vm_compute; reflexivity|].
  by repeat split.
Qed.

(** C2, where the code departs from it.  The first handler holds the lock
    and the second one waits for it when the download of the first one
    fails with an exception (a time-out is one).  The [catch] block removes
    the entry of [downloadLocks] and answers 500, but the lock promise is
    never resolved: the second handler stays at its [await], and no event
    moves the system any more.  In general the [catch] block leaves the set
    of resolved promises as it was. *)
Theorem waiter_stranded_on_error :
  (∃ st,
     Serve.sample_run Serve.failing_turns = Some st
     ∧ Serve.pc_of st 0
       = Some (Serve.Done {| Serve.status := 500; Serve.headers := [];
                             Serve.body := js "Download failed" |})
     ∧ Serve.downloadLocks st !! js "123" = None
     ∧ (0%nat ∉ Serve.resolved st)
     ∧ Serve.pc_of st 1 = Some (Serve.AwaitLock 0)
     ∧ ∀ now i e, Serve.step Some Some (λ _, []) (λ _, []) now i e st = None)
  ∧ (∀ encodeURIComponent decodeURIComponent utf16le_decode win1250_decode
       now i r cfg p st,
       Serve.config r = Some cfg →
       ∃ resp st',
         Serve.handle encodeURIComponent decodeURIComponent utf16le_decode
           win1250_decode now i r (Serve.AwaitDownload p)
           (Serve.DownloadAnswer Serve.DownloadError) st
         = Some (Serve.Done resp, st')
         ∧ Serve.status resp = 500
         ∧ Serve.downloadLocks st' !! Serve.subId r = None
         ∧ Serve.resolved st' = Serve.resolved st).
Proof.
  split.
  - eexists. split; [vm_compute; reflexivity|].
    split; [reflexivity|]. split; [reflexivity|].
    split; [intros H; apply (bool_decide_pack _) in H; by vm_compute in H|].
    split; [reflexivity|].
    intros now i e. destruct i as [|[|i]]; destruct e; reflexivity.
  - intros enc dec u16 w1250 now i r cfg p st Hcfg.
    unfold Serve.handle. rewrite Hcfg. eexists _, _. split; [reflexivity|].
    cbn. split; [done|]. split; [apply lookup_delete_eq | done].
Qed.

Lemma waiter_stranded_on_error_witness :
  ∃ resp st',
    Serve.handle Some Some (λ _, []) (λ _, []) 5 0 Serve.sample_request
      (Serve.AwaitDownload 0) (Serve.DownloadAnswer Serve.DownloadError)
      (Serve.init [Serve.sample_request])
    = Some (Serve.Done resp, st')
    ∧ Serve.status resp = 500
    ∧ Serve.downloadLocks st' !! js "123" = None
    ∧ Serve.resolved st' = ∅.
Proof.
  apply (proj2 waiter_stranded_on_error Some Some (λ _, []) (λ _, []) 5%Z 0%nat
           Serve.sample_request {| Serve.omni := false |} 0%nat
           (Serve.init [Serve.sample_request])).
  reflexivity.
Defined.

(** Twelve results and one custom subtitle: eleven entries are listed, the
    custom one first, ten from the site. *)
Lemma listing_caps_site_results_witness :
  let x := {| Listing.sub := {| Listing.id := js "7"; Listing.linkFile := js "a-7";
                                 Listing.title := js "A"; Listing.version := None;
                                 Listing.lang := js "cze" |};
              Listing.score := 0 |} in
  let cs := {| Listing.key := js "custom/tt1/a.srt"; Listing.filename := js "a.srt";
               Listing.label := js "a" |} in
  let response :=
    Listing.subtitles_response Some ∅ (js "h") (js "c") (js "tt1") false false
      (repeat x 12) [cs] in
  length response = 11%nat
  ∧ ∃ customs site,
      response = customs ++ site
      ∧ map Listing.e_id site
        = map Listing.site_id
            (take 10 (Listing.ranked ∅ false false (repeat x 12)))
      ∧ map Listing.e_id customs = rev (map Listing.custom_id [cs])
      ∧ List.filter Listing.from_site customs = [].
Proof.
  cbv zeta. split; [by vm_compute|].
  apply (listing_caps_site_results Some ∅ (js "h") (js "c") (js "tt1") false false).
  intros s. by eexists.
Defined.

Lemma limit_cue_served_witness :
  ∃ st',
    Serve.step Some Some (λ _, []) (λ _, []) 5 0
      (Serve.DownloadAnswer Serve.NoFiles)
      (Serve.set_handler 0 Serve.sample_request (Serve.AwaitDownload 0)
         (Serve.init [Serve.sample_request]))
    = Some st'
    ∧ Serve.handlers st' !! 0%nat
      = Some (Serve.sample_request, Serve.Done (Serve.limit_response false)).
Proof.
  destruct (limit_cue_served Some Some (λ _, []) (λ _, []) 5%Z 0%nat
              Serve.sample_request {| Serve.omni := false |} 0%nat Serve.NoFiles
              (Serve.set_handler 0 Serve.sample_request (Serve.AwaitDownload 0)
                 (Serve.init [Serve.sample_request])))
    as (st' & Hstep & Hpc & _).
  - reflexivity.
  - reflexivity.
  - by left.
  - by exists st'.
Defined.
